(** * DIORA semi-supervised parsing loss: span scoring chart and tree codecs

    A shallow embedding of the span utilities of
    [pytorch/diora/net/trainer.py] (class [SemiSupervisedParsingLoss]) and of
    [str_to_tuple] from [pytorch/diora/scripts/train.py], with the properties
    the design document states about them.

    Conventions of the embedding.
    - Python integers are [Z] where they are data (span components, root
      queries) and [nat] where they are loop counters produced by [range].
    - A tensor of shape [(B,)] is a [list Z], one of shape [(B, N)] a list of
      [B] rows.  Scores are [float32] in the source; here they are exact
      integers, the statements below being about which cells are combined and
      which split is selected, not about rounding.
    - [diora.saved_scalars] is produced by the encoder with the shape of the
      chart; it is taken as a total function of its four indices
      [level], [pos], batch element and split.
    - Exceptions are values of [exn]; fallible code lives in [result]. *)

From stdpp Require Import gmap strings list.
From Stdlib Require Import ZArith Lia Ascii.

Open Scope Z_scope.
Open Scope nat_scope.

Set Warnings "-register-all".

(** ** Exceptions *)

Inductive exn : Type :=
| AssertionError (msg : string)
| IndexError
| TypeError.

Inductive result (A : Type) : Type :=
| Ok (a : A)
| Raise (e : exn).

Arguments Ok {A} a.
Arguments Raise {A} e.

#[global] Instance result_ret : MRet result := @Ok.

#[global] Instance result_bind : MBind result :=
  λ A B f m, match m with Ok a => f a | Raise e => Raise e end.

(** A [for] loop whose body may raise. *)
Fixpoint foldM {S A : Type} (f : S → A → result S) (s : S) (l : list A) : result S :=
  match l with
  | [] => Ok s
  | x :: l' => s' ← f s x; foldM f s' l'
  end.

(** A list comprehension whose element expression may raise. *)
Fixpoint forM {A B : Type} (f : A → result B) (l : list A) : result (list B) :=
  match l with
  | [] => Ok []
  | x :: l' => y ← f x; ys ← forM f l'; Ok (y :: ys)
  end.

(** ** Python indexing *)

(** [l[i]] for a counter [i ≥ 0]. *)
Definition py_get {A : Type} (l : list A) (i : nat) : result A :=
  match l !! i with
  | Some x => Ok x
  | None => Raise IndexError
  end.

(** [l[i]] for an arbitrary integer: negative indices count from the end. *)
Definition py_index {A : Type} (l : list A) (i : Z) : result A :=
  if decide (0 ≤ i)%Z then py_get l (Z.to_nat i)
  else if decide (- Z.of_nat (length l) ≤ i)%Z
       then py_get l (Z.to_nat (Z.of_nat (length l) + i))
       else Raise IndexError.

(** [l[i] = x] for a counter [i ≥ 0]. *)
Definition py_set {A : Type} (l : list A) (i : nat) (x : A) : result (list A) :=
  if decide (i < length l) then Ok (<[i:=x]> l) else Raise IndexError.

(** ** Spans *)

(** A span is the tuple [(start, length)]. *)
Definition span : Type := (Z * Z)%type.

(** ** [SemiSupervisedParsingLoss.findParent] *)

(** The test of the first loop: [i <= span[0] and i+j-1 >= span[0]+span[1]-1]. *)
Definition covers (c sp : span) : bool :=
  (c.1 <=? sp.1)%Z && (sp.1 + sp.2 - 1 <=? c.1 + c.2 - 1)%Z.

(** The test of the third loop: [i >= root[0] and i+j <= root[0]+root[1]]. *)
Definition inside (root c : span) : bool :=
  (root.1 <=? c.1)%Z && (c.1 + c.2 <=? root.1 + root.2)%Z.

(** The second loop: [mx] starts at 1000 and [root] at [None]. *)
Definition pick_min (st : Z * option span) (c : span) : Z * option span :=
  if (c.2 <? st.1)%Z then (c.2, Some c) else st.

(** One iteration of the third loop; subscripting a [None] root raises. *)
Definition collect_child (root : option span) (children : list span) (c : span)
  : result (list span) :=
  match root with
  | None => Raise TypeError
  | Some r => if inside r c then Ok (children ++ [c]) else Ok children
  end.

(** [tree] is given in its iteration order. *)
Definition findParent (tree : list span) (sp : span) : result (option span * list span) :=
  if bool_decide (sp ∈ tree) then Ok (Some sp, [sp])
  else
    let tmp := filter (λ c, covers c sp = true) tree in
    let '(mx, root) := fold_left pick_min tmp (1000%Z, None) in
    children ← foldM (collect_child root) [] tree;
    Ok (root, children).

(** ** The scoring chart of [get_score_for_spans] and its two variants *)

(** [diora.saved_scalars]: [scalars level pos b idx] is
    [scalars[level][pos][b, idx]]. *)
Definition potentials : Type := nat → nat → nat → nat → Z.

(** [chart = [torch.full((length-i, batch_size), 1) for i in range(length)]] *)
Definition chart_init (len batch_size : nat) : list (list (list Z)) :=
  map (λ i, replicate (len - i) (replicate batch_size 1%Z)) (seq 0 len).

(** The backpointer table: for every batch element a triangle of [None]
    whose first row is then replaced by the token positions.  The table is
    never read, but the assignment to [bp[ib][0]] fails on an empty
    sequence. *)
Definition backpointers (len batch_size : nat)
  : result (list (list (list (option nat)))) :=
  forM (λ ib : nat,
          py_set (map (λ i, replicate (len - i) None) (seq 0 len)) 0
                 (map Some (seq 0 len)))
       (seq 0 batch_size).

(** [size == 1 or span in span_sets[batch_idx]]: the set of the batch element
    is looked up only when the size is not 1. *)
Definition in_set (span_sets : list (gset span)) (batch_idx size : nat) (sp : span)
  : result bool :=
  if decide (size = 1) then Ok true
  else s ← py_get span_sets batch_idx; Ok (bool_decide (sp ∈ s)).

(** Body of the loop over [batch_idx] (trainer.py, lines 299 to 305). *)
Definition identify (span_sets : list (gset span)) (idx l_size r_size : nat)
    (l_span r_span : span) (st : list nat * list bool) (batch_idx : nat)
  : result (list nat * list bool) :=
  let '(to_choose, to_choose_assert) := st in
  left_in_set ← in_set span_sets batch_idx l_size l_span;
  right_in_set ← in_set span_sets batch_idx r_size r_span;
  if left_in_set && right_in_set then
    to_choose ← py_set to_choose batch_idx idx;
    already ← py_get to_choose_assert batch_idx;
    if (already : bool) then Raise (AssertionError "Only one valid tree.")
    else
      to_choose_assert ← py_set to_choose_assert batch_idx true;
      Ok (to_choose, to_choose_assert)
  else Ok (to_choose, to_choose_assert).

(** What the loop over [idx] accumulates for one cell.  (The list [pairs]
    is filled by the source and never read.) *)
Record cell_state : Type := CellState {
  lps : list (list Z);
  rps : list (list Z);
  sps : list (list Z);
  to_choose : list nat;
  to_choose_assert : list bool
}.

Definition cell_state_init (batch_size : nat) : cell_state :=
  CellState [] [] [] (replicate batch_size 0) (replicate batch_size false).

(** Body of the loop over [idx] (lines 269 to 305). *)
Definition split_step (chart : list (list (list Z))) (scalars : potentials)
    (span_sets : list (gset span)) (batch_size level pos : nat)
    (st : cell_state) (idx : nat) : result cell_state :=
  let l_level := idx in
  let l_pos := pos in
  let r_level := level - idx - 1 in
  let r_pos := pos + idx + 1 in
  l_row ← py_get chart l_level;
  lp ← py_get l_row l_pos;
  r_row ← py_get chart r_level;
  rp ← py_get r_row r_pos;
  let sp := map (λ b, scalars level pos b idx) (seq 0 batch_size) in
  let l_size := l_level + 1 in
  let r_size := r_level + 1 in
  let l_span : span := (Z.of_nat l_pos, Z.of_nat l_size) in
  let r_span : span := (Z.of_nat r_pos, Z.of_nat r_size) in
  chosen ← foldM (identify span_sets idx l_size r_size l_span r_span)
                 (to_choose st, to_choose_assert st) (seq 0 batch_size);
  Ok (CellState (lps st ++ [lp]) (rps st ++ [rp]) (sps st ++ [sp]) chosen.1 chosen.2).

(** [torch.cat(cols, 1)] of columns of shape [(batch_size, 1)]; there is at
    least one column, a cell of level [N ≥ 1] having [N] splits. *)
Definition cat1 (batch_size : nat) (cols : list (list Z)) : result (list (list Z)) :=
  forM (λ b, forM (λ col, py_get col b) cols) (seq 0 batch_size).

(** Element-wise [+] of two tensors of one shape [(B, N)]. *)
Definition tensor_add (x y : list (list Z)) : list (list Z) :=
  zip_with (zip_with Z.add) x y.

(** [torch.argmax] of a row that is not empty: the first index holding the
    maximal value. *)
Fixpoint argmax_from (best_i : nat) (best : Z) (i : nat) (row : list Z) : nat :=
  match row with
  | [] => best_i
  | x :: row' =>
      if (best <? x)%Z then argmax_from i x (S i) row'
      else argmax_from best_i best (S i) row'
  end.

Definition argmax (row : list Z) : nat :=
  match row with
  | [] => 0
  | x :: row' => argmax_from 0 x 1 row'
  end.

(** Lines 313 to 317: the arg-max, masked where a split was forced, plus the
    forced split.  The three tensors have [batch_size] entries each. *)
Definition select_override (ps : list (list Z)) (to_choose : list nat)
    (to_choose_assert : list bool) : list nat :=
  let argmax1 := map argmax ps in
  let not_to_choose_assert := map negb to_choose_assert in
  let argmax1 := zip_with (λ a (keep : bool), a * (if keep then 1 else 0))
                          argmax1 not_to_choose_assert in
  let argmax := to_choose in
  zip_with Nat.add argmax1 argmax.

(** Lines 403 and 501: [argmax = torch.tensor(to_choose)]. *)
Definition select_given (ps : list (list Z)) (to_choose : list nat)
    (to_choose_assert : list bool) : list nat :=
  to_choose.

(** [ps[range(batch_size), argmax]] *)
Definition gather (batch_size : nat) (ps : list (list Z)) (argmax : list nat)
  : result (list Z) :=
  forM (λ b, row ← py_get ps b; i ← py_get argmax b; py_get row i) (seq 0 batch_size).

(** [chart[level][pos, :] = valmax], for [valmax] of [batch_size] entries. *)
Definition chart_set (chart : list (list (list Z))) (level pos : nat) (valmax : list Z)
  : result (list (list (list Z))) :=
  row ← py_get chart level;
  row' ← py_set row pos valmax;
  py_set chart level row'.

(** Body of the loop over [pos]; [select] is the block headed
    "Use the relevant spans", the only place where the three functions differ. *)
Definition fill_cell (select : list (list Z) → list nat → list bool → list nat)
    (scalars : potentials) (span_sets : list (gset span)) (batch_size level : nat)
    (chart : list (list (list Z))) (pos : nat) : result (list (list (list Z))) :=
  st ← foldM (split_step chart scalars span_sets batch_size level pos)
             (cell_state_init batch_size) (seq 0 level);
  lps ← cat1 batch_size (lps st);
  rps ← cat1 batch_size (rps st);
  sps ← cat1 batch_size (sps st);
  let ps := tensor_add (tensor_add lps rps) sps in
  let argmax := select ps (to_choose st) (to_choose_assert st) in
  valmax ← gather batch_size ps argmax;
  chart_set chart level pos valmax.

(** Body of the loop over [level]. *)
Definition fill_level (select : list (list Z) → list nat → list bool → list nat)
    (scalars : potentials) (span_sets : list (gset span)) (len batch_size : nat)
    (chart : list (list (list Z))) (level : nat) : result (list (list (list Z))) :=
  foldM (fill_cell select scalars span_sets batch_size level) chart (seq 0 (len - level)).

(** The chart as it stands when the loop over [level] is left. *)
Definition fill_chart (select : list (list Z) → list nat → list bool → list nat)
    (len batch_size : nat) (scalars : potentials) (spans : list (list span))
  : result (list (list (list Z))) :=
  let span_sets := map (λ span_lst, list_to_set span_lst) spans in
  let chart := chart_init len batch_size in
  bp ← backpointers len batch_size;
  foldM (fill_level select scalars span_sets len batch_size) chart (seq 1 (len - 1)).

(** [sentences] enters only through its shape [(batch_size, length)]. *)
Definition get_score_for_spans (len batch_size : nat) (scalars : potentials)
    (spans : list (list span)) : result (list Z) :=
  chart ← fill_chart select_override len batch_size scalars spans;
  top ← py_index chart (-1);
  py_get top 0.

(** Lines 412 to 420 and 507 to 515: the scores of the queried roots. *)
Definition chart_roots (chart : list (list (list Z))) (root_list : list (list span))
  : result (list (list Z)) :=
  forM (λ '(bt, roots),
          forM (λ root : span,
                  row ← py_index chart (root.2 - 1)%Z;
                  cell ← py_index row root.1;
                  py_get cell bt) roots)
       (zip (seq 0 (length root_list)) root_list).

Definition get_score_for_spans_modified (len batch_size : nat) (scalars : potentials)
    (spans : list (list span)) (root_list : list (list span)) : result (list (list Z)) :=
  chart ← fill_chart select_given len batch_size scalars spans;
  chart_roots chart root_list.

Definition get_score_for_spans_given (len batch_size : nat) (scalars : potentials)
    (spans : list (list span)) (root_list : list (list span)) : result (list (list Z)) :=
  chart ← fill_chart select_given len batch_size scalars spans;
  chart_roots chart root_list.

(** ** [str_to_tuple] (scripts/train.py) *)

(** What the parsing stack holds: a token, or a tuple built at a [")"]. *)
Inductive item : Type :=
| Str (s : string)
| Tuple (items : list item).

(** [tr.split(" ")]: every single space separates, so consecutive spaces
    yield empty tokens, and the empty string yields one empty token. *)
Fixpoint split_space (s : string) : list string :=
  match s with
  | EmptyString => [EmptyString]
  | String c s' =>
      if Ascii.eqb c " "%char then EmptyString :: split_space s'
      else match split_space s' with
           | [] => [String c EmptyString]
           | w :: ws => String c w :: ws
           end
  end.

(** [x != '(']: a tuple differs from every string. *)
Definition is_open (x : item) : bool :=
  match x with
  | Str s => String.eqb s "("
  | Tuple _ => false
  end.

(** The [while] loop.  The stack is kept with its top first; [inside] is the
    deque, filled by [appendleft].  Returns what is left of the stack, the
    open bracket (if any) still on it, and the deque. *)
Fixpoint pop_until_open (stack inside : list item) : list item * list item :=
  match stack with
  | [] => ([], inside)
  | x :: stack' =>
      if is_open x then (stack, inside)
      else pop_until_open stack' (x :: inside)
  end.

(** Body of the loop over the tokens. *)
Definition push_token (stack : list item) (s : string) : list item :=
  if negb (String.eqb s ")") then Str s :: stack
  else
    let '(stack, inside) := pop_until_open stack [] in
    let stack := match stack with [] => [] | _ :: stack' => stack' end in
    Tuple inside :: stack.

(** The returned list is the stack, bottom first as Python lists it. *)
Definition str_to_tuple (tr : string) : list item :=
  let tree := split_space tr in
  rev (fold_left push_token tree []).

(** * Vocabulary of the statements *)

(** ** Closest-ancestor lookup *)

(** Some span returned by the first loop of [findParent]. *)
Definition has_cover (tree : list span) (sp : span) : Prop :=
  ∃ c, c ∈ tree ∧ covers c sp = true.

(** ** Chart cells *)

(** [chart[level][pos][b]], when the three indices are in range. *)
Definition cell (chart : list (list (list Z))) (level pos b : nat) : option Z :=
  row ← chart !! level; v ← row !! pos; v !! b.

(** [chart[level][pos]] as a vector over the batch. *)
Definition cell_vec (chart : list (list (list Z))) (level pos : nat) : option (list Z) :=
  row ← chart !! level; row !! pos.

(** Row [level] has [len - level] cells, each a vector of [batch_size]
    scores. *)
Definition chart_shape (len batch_size : nat) (chart : list (list (list Z))) : Prop :=
  length chart = len ∧
  ∀ level row, chart !! level = Some row →
    length row = len - level ∧
    ∀ pos v, row !! pos = Some v → length v = batch_size.

(** The same with a default, for use under a binder. *)
Definition cell_val (chart : list (list (list Z))) (level pos b : nat) : Z :=
  default 0%Z (cell chart level pos b).

(** [left_score + right_score + split_potential[level][pos][idx]] for batch
    element [b], the children read from [chart]. *)
Definition combined (chart : list (list (list Z))) (scalars : potentials)
    (level pos b idx : nat) : Z :=
  (cell_val chart idx pos b
   + cell_val chart (level - idx - 1)%nat (pos + idx + 1)%nat b
   + scalars level pos b idx)%Z.

(** The condition under which line 303 records [idx] for a batch element
    whose constraint set is [s]. *)
Definition forced (s : gset span) (level pos idx : nat) : bool :=
  (bool_decide (idx + 1 = 1)
   || bool_decide ((Z.of_nat pos, Z.of_nat (idx + 1)) ∈ s))
  && (bool_decide (level - idx - 1 + 1 = 1)
      || bool_decide ((Z.of_nat (pos + idx + 1), Z.of_nat (level - idx - 1 + 1)) ∈ s)).

(** The constraint set of batch element [b]. *)
Definition span_set (spans : list (list span)) (b : nat) : gset span :=
  list_to_set (default [] (spans !! b)).

(** Two different splits of one cell are forced for one batch element. *)
Definition ambiguous (len batch_size : nat) (spans : list (list span)) : Prop :=
  ∃ level pos b i j,
    1 ≤ level ∧ level + pos < len ∧ b < batch_size ∧
    i < level ∧ j < level ∧ i ≠ j ∧
    forced (span_set spans b) level pos i = true ∧
    forced (span_set spans b) level pos j = true.

(** The book-keeping of one batch element once the splits below [j] of a cell
    have been examined: [choose] is its entry of [to_choose], [flag] its
    entry of [to_choose_assert]. *)
Definition book (s : gset span) (level pos j : nat)
    (choose : option nat) (flag : option bool) : Prop :=
  (flag = Some false ∧ choose = Some 0 ∧
   ∀ i, i < j → forced s level pos i = false)
  ∨ (flag = Some true ∧
     ∃ i, i < j ∧ forced s level pos i = true ∧ choose = Some i ∧
          ∀ i', i' < j → forced s level pos i' = true → i' = i).

(** [i] is the first index below [n] at which [f] is maximal. *)
Definition first_argmax (f : nat → Z) (n i : nat) : Prop :=
  i < n ∧ (∀ j, j < n → (f j ≤ f i)%Z) ∧ (∀ j, j < i → (f j < f i)%Z).

(** The entry of one batch element in the index tensor built by lines 313 to
    317, from its row of [ps] and its entries of [to_choose] and
    [to_choose_assert]; and the same for lines 403 and 501. *)
Definition pick_override (row : list Z) (choose : nat) (flag : bool) : nat :=
  argmax row * (if negb flag then 1 else 0) + choose.

Definition pick_given (row : list Z) (choose : nat) (flag : bool) : nat :=
  choose.

(** The split whose combined score a cell stores, by selection rule. *)
Definition selected_override (s : gset span) (f : nat → Z) (level pos idx : nat) : Prop :=
  idx < level ∧
  (forced s level pos idx = true
   ∨ ((∀ j, j < level → forced s level pos j = false) ∧ first_argmax f level idx)).

Definition selected_given (s : gset span) (f : nat → Z) (level pos idx : nat) : Prop :=
  (idx < level ∧ forced s level pos idx = true)
  ∨ ((∀ j, j < level → forced s level pos j = false) ∧ idx = 0).

(** Every cell of a chart of the right shape holds what [sel] prescribes. *)
Definition chart_filled
    (sel : gset span → (nat → Z) → nat → nat → nat → Prop)
    (len batch_size : nat) (scalars : potentials) (spans : list (list span))
    (chart : list (list (list Z))) : Prop :=
  length chart = len ∧
  (∀ pos b, pos < len → b < batch_size → cell chart 0 pos b = Some 1%Z) ∧
  (∀ level pos b, 1 ≤ level → level + pos < len → b < batch_size →
     ∃ idx, idx < level ∧
            sel (span_set spans b) (combined chart scalars level pos b) level pos idx ∧
            cell chart level pos b = Some (combined chart scalars level pos b idx)).

(** A root query list: at most one list per batch element, every queried
    span [(pos, size)] a span of the sequence. *)
Definition valid_roots (len batch_size : nat) (root_list : list (list span)) : Prop :=
  length root_list ≤ batch_size ∧
  ∀ bt roots root, root_list !! bt = Some roots → root ∈ roots →
    (0 ≤ root.1)%Z ∧ (1 ≤ root.2)%Z ∧ (root.1 + root.2 ≤ Z.of_nat len)%Z.

(** ** Bracketings *)

(** A binary bracketing of a run of tokens. *)
Inductive btree : Type :=
| Leaf
| Node (l r : btree).

Fixpoint leaves (t : btree) : nat :=
  match t with
  | Leaf => 1
  | Node l r => leaves l + leaves r
  end.

(** Sum of the split potentials along [t], the bracketing of the tokens
    [pos .. pos + leaves t - 1] of batch element [b]: a node over a left part
    of [k] tokens and [m] tokens in all uses split [k - 1] of cell
    [(m - 1, pos)]. *)
Fixpoint tree_score (scalars : potentials) (b pos : nat) (t : btree) : Z :=
  match t with
  | Leaf => 0%Z
  | Node l r =>
      (tree_score scalars b pos l + tree_score scalars b (pos + leaves l)%nat r
       + scalars (leaves l + leaves r - 1)%nat pos b (leaves l - 1)%nat)%Z
  end.

(** [v] is the maximum of [tree_score] over the bracketings of [n] tokens
    starting at [pos]. *)
Definition max_bracketing_score (scalars : potentials) (b pos n : nat) (v : Z) : Prop :=
  (∀ t, leaves t = n → (tree_score scalars b pos t ≤ v)%Z) ∧
  (∃ t, leaves t = n ∧ tree_score scalars b pos t = v).

(** [t] is the only bracketing of its tokens whose sum of potentials is
    maximal. *)
Definition unique_max_bracketing (scalars : potentials) (b pos : nat) (t : btree) : Prop :=
  ∀ t', leaves t' = leaves t → t' ≠ t →
    (tree_score scalars b pos t' < tree_score scalars b pos t)%Z.

(** The bracketing [((0,2),(2,2)) -> (0,4)] of four tokens. *)
Definition balanced4 : btree := Node (Node Leaf Leaf) (Node Leaf Leaf).

(** Potentials on four tokens under which [balanced4] is the only best
    bracketing, while the span [(0, 3)] on its own is best split after its
    first token. *)
Definition scenario_potentials : potentials :=
  λ level pos b idx,
    match level, pos, idx with
    | 2, 0, 0 => 5%Z
    | 3, 0, 1 => 100%Z
    | _, _, _ => 0%Z
    end.

(** ** Bracketed text *)

(** The tokens of the bracketed notation of a tree. *)
Fixpoint tokens_of (t : item) : list string :=
  match t with
  | Str w => [w]
  | Tuple ts => "(" :: concat (map tokens_of ts) ++ [")"]
  end.

(** Tokens joined by single spaces. *)
Fixpoint join_space (ws : list string) : string :=
  match ws with
  | [] => EmptyString
  | [w] => w
  | w :: ws' => w +:+ String " "%char (join_space ws')
  end.

Fixpoint no_space (s : string) : bool :=
  match s with
  | EmptyString => true
  | String c s' => negb (Ascii.eqb c " "%char) && no_space s'
  end.

(** A word of the text: not a bracket, and free of spaces. *)
Definition is_word (w : string) : bool :=
  negb (String.eqb w "(") && negb (String.eqb w ")") && no_space w.

(** Every leaf of the tree is a word. *)
Fixpoint well_formed (t : item) : bool :=
  match t with
  | Str w => is_word w
  | Tuple ts => forallb well_formed ts
  end.

(** * Further functions of the two files *)

(** ** [makeLeftTree] and [makeRightTree] (trainer.py) *)

(** [range(a, b)] over the integers. *)
Definition py_range (a b : Z) : list Z :=
  map (λ i, (a + Z.of_nat i)%Z) (seq 0 (Z.to_nat (b - a))).

(** The loop over [t] in [makeLeftTree]: [(start, 2), ..., (start, l)] is
    appended for every span [(start, l)]. *)
Definition left_chain (tmp : list span) (t : span) : list span :=
  let start := t.1 in
  let l := t.2 in
  fold_left (λ tmp i, tmp ++ [(start, i)]) (py_range 2 (l + 1)) tmp.

Definition makeLeftTree (spans : list (list span)) : list (list span) :=
  map (λ s, fold_left left_chain s []) spans.

(** The loop over [t] in [makeRightTree]: with [end = start + l - 1],
    [(end - 1, 2), ..., (end - (l - 1), l)] is appended. *)
Definition right_chain (tmp : list span) (t : span) : list span :=
  let start := t.1 in
  let l := t.2 in
  let end_ := (start + l - 1)%Z in
  fold_left (λ tmp i, tmp ++ [((end_ - i)%Z, (i + 1)%Z)]) (py_range 1 l) tmp.

Definition makeRightTree (spans : list (list span)) : list (list span) :=
  map (λ s, fold_left right_chain s []) spans.

(** ** [findClosestParent] (trainer.py) *)

(** [set_iter l] stands for the order in which Python iterates over
    [set(l)]; the statements below hold for every such order. *)
Definition closest_parents (set_iter : list span → list span)
    (max_spans : list (list span)) (i : nat)
    (st : list span * list (option span)) (t : span)
  : result (list span * list (option span)) :=
  let '(tmp, tmp_root) := st in
  tree ← py_get max_spans i;
  found ← findParent (set_iter tree) t;
  Ok (tmp ++ found.2, tmp_root ++ [found.1]).

Definition findClosestParent (set_iter : list span → list span)
    (max_spans ner_spans : list (list span))
  : result (list (list (option span)) * list (list span)) :=
  foldM (λ '(roots, diora_spans) i,
           s ← py_get ner_spans i;
           found ← (if decide (0 < length s)
                    then foldM (closest_parents set_iter max_spans i) ([], []) s
                    else Ok ([], []));
           Ok (roots ++ [found.2], diora_spans ++ [found.1]))
        ([], []) (seq 0 (length ner_spans)).

(** ** [replace_leaves], [tree_to_spans], [precision_and_recall] (train.py) *)

(** The inner function [func] of [replace_leaves]: a list or tuple is
    rebuilt as a list, every other node is replaced by [leaves[pos]]. *)
Fixpoint replace_func (leaves : list string) (tr : item) (pos : nat)
  : result (nat * item) :=
  match tr with
  | Str _ => leaf ← py_get leaves pos; Ok (1, Str leaf)
  | Tuple ts =>
      built ← (fix loop (ts : list item) (sofar : nat) (newtree : list item)
                 : result (nat * list item) :=
                 match ts with
                 | [] => Ok (sofar, newtree)
                 | node :: ts' =>
                     sub ← replace_func leaves node (pos + sofar);
                     loop ts' (sofar + sub.1) (newtree ++ [sub.2])
                 end) ts 0 [];
      Ok (built.1, Tuple built.2)
  end.

Definition replace_leaves (tree : item) (leaves : list string) : result item :=
  built ← replace_func leaves tree 0;
  Ok built.2.

(** The inner function [helper] of [tree_to_spans]; the list [spans] of the
    enclosing function is threaded through. *)
Fixpoint spans_helper (tr : item) (pos : nat) (spans : list span)
  : nat * list span :=
  match tr with
  | Str _ => (1, spans)
  | Tuple ts =>
      let '(size, spans) :=
        (fix loop (ts : list item) (size : nat) (spans : list span)
           : nat * list span :=
           match ts with
           | [] => (size, spans)
           | x :: ts' =>
               let '(xsize, spans) := spans_helper x (pos + size) spans in
               loop ts' (size + xsize) spans
           end) ts 0 spans in
      (size, spans ++ [(Z.of_nat pos, Z.of_nat size)])
  end.

Definition tree_to_spans (tr : item) : list span :=
  (spans_helper tr 0 []).2.

Definition precision_and_recall (gold not_gold : list span) : nat * nat * nat :=
  let gold_span : gset span := list_to_set gold in
  let not_gold_span : gset span := list_to_set not_gold in
  let prec := set_fold (λ sp prec, if bool_decide (sp ∈ gold_span) then prec + 1 else prec)
                       0 not_gold_span in
  let recall := set_fold (λ sp recall,
                            if bool_decide (sp ∈ not_gold_span) then recall + 1 else recall)
                         0 gold_span in
  (prec, recall, size gold_span).

(** ** The evaluation of one example in [run_train] (train.py, lines 241 to 260)

    [tr] is the tree predicted for the example, [s] its words and
    [parse_tree] the entry of [batch_map["parse_tree"]]: a text, which
    [str_to_tuple] reads, or a sequence already.  The three counts are what
    the loop adds to [precision], [recall] and [total_len]. *)
Definition run_train_example (parse_tree : string + list item) (tr : item)
    (s : list string) : result (nat * nat * nat) :=
  tr ← replace_leaves tr s;
  let parse_tree_tuple :=
    match parse_tree with
    | inl text => str_to_tuple text
    | inr tuple => tuple
    end in
  let o_spans := tree_to_spans tr in
  gold ← py_get parse_tree_tuple 0;
  let batch_spans := tree_to_spans gold in
  Ok (precision_and_recall batch_spans o_spans).

(** ** Vocabulary for the further statements *)

(** Number of leaves, words at the leaves, and number of list nodes of a
    nested tree. *)
Fixpoint item_size (tr : item) : nat :=
  match tr with
  | Str _ => 1
  | Tuple ts => list_sum (map item_size ts)
  end.

Fixpoint item_words (tr : item) : list string :=
  match tr with
  | Str w => [w]
  | Tuple ts => concat (map item_words ts)
  end.

Fixpoint item_nodes (tr : item) : nat :=
  match tr with
  | Str _ => 0
  | Tuple ts => S (list_sum (map item_nodes ts))
  end.

(** The spans of the list nodes of [tr], children before parents, when the
    first leaf of [tr] is token [pos]. *)
Fixpoint node_spans (pos : nat) (tr : item) : list span :=
  match tr with
  | Str _ => []
  | Tuple ts =>
      (fix loop (ts : list item) (size : nat) : list span :=
         match ts with
         | [] => []
         | x :: ts' => node_spans (pos + size) x ++ loop ts' (size + item_size x)
         end) ts 0
      ++ [(Z.of_nat pos, Z.of_nat (item_size tr))]
  end.

(** The tree with its words erased. *)
Fixpoint skeleton (tr : item) : item :=
  match tr with
  | Str _ => Str ""
  | Tuple ts => Tuple (map skeleton ts)
  end.

(** A tree all of whose list nodes have two children, and its bracketing. *)
Fixpoint binary (tr : item) : bool :=
  match tr with
  | Str _ => true
  | Tuple [l; r] => binary l && binary r
  | Tuple _ => false
  end.

Fixpoint shape (tr : item) : btree :=
  match tr with
  | Tuple [l; r] => Node (shape l) (shape r)
  | _ => Leaf
  end.

(** The spans of the nodes of a bracketing whose first leaf is token [pos],
    children before parents. *)
Fixpoint bspans (pos : nat) (t : btree) : list span :=
  match t with
  | Leaf => []
  | Node l r =>
      bspans pos l ++ bspans (pos + leaves l) r
      ++ [(Z.of_nat pos, Z.of_nat (leaves l + leaves r))]
  end.

(** The right-branching and the left-branching bracketing of [n] tokens. *)
Fixpoint right_comb (n : nat) : btree :=
  match n with
  | 0 => Leaf
  | S n' => match n' with 0 => Leaf | S _ => Node Leaf (right_comb n') end
  end.

Fixpoint left_comb (n : nat) : btree :=
  match n with
  | 0 => Leaf
  | S n' => match n' with 0 => Leaf | S _ => Node (left_comb n') Leaf end
  end.

(** Two spans lie one inside the other or apart. *)
Definition nested_or_apart (sp1 sp2 : span) : Prop :=
  (sp1.1 + sp1.2 ≤ sp2.1)%Z ∨ (sp2.1 + sp2.2 ≤ sp1.1)%Z ∨
  (sp1.1 ≤ sp2.1 ∧ sp2.1 + sp2.2 ≤ sp1.1 + sp1.2)%Z ∨
  (sp2.1 ≤ sp1.1 ∧ sp1.1 + sp1.2 ≤ sp2.1 + sp2.2)%Z.

(** No two spans of the set cross. *)
Definition laminar (s : gset span) : Prop :=
  ∀ sp1 sp2, sp1 ∈ s → sp2 ∈ s → nested_or_apart sp1 sp2.

(** A span of a sequence of [len] tokens. *)
Definition span_within (len : nat) (t : span) : Prop :=
  (0 ≤ t.1)%Z ∧ (1 ≤ t.2)%Z ∧ (t.1 + t.2 ≤ Z.of_nat len)%Z.

(** Given spans that are spans of the sequence and, when different, share no
    token. *)
Definition separate_spans (len : nat) (s : list span) : Prop :=
  (∀ t, t ∈ s → span_within len t) ∧
  ∀ t u, t ∈ s → u ∈ s → t = u ∨ (t.1 + t.2 ≤ u.1)%Z ∨ (u.1 + u.2 ≤ t.1)%Z.

(** * Properties *)

(** ** [findParent] *)

Section find_parent.

Implicit Types (tree : list span) (sp c : span).

Lemma pick_min_fold (l : list span) (mx : Z) (r : option span) :
  ∃ mx' r', fold_left pick_min l (mx, r) = (mx', r') ∧
    (∀ c, c ∈ l → (mx' ≤ c.2)%Z) ∧
    ((mx' = mx ∧ r' = r) ∨ ((mx' < mx)%Z ∧ ∃ c, c ∈ l ∧ r' = Some c ∧ c.2 = mx')).
Proof.
  revert mx r. induction l as [|c l IH]; intros mx r; simpl.
  - exists mx, r. split; [done|]. split; [|by left]. intros c Hc. by apply elem_of_nil in Hc.
  - unfold pick_min at 2; simpl.
    destruct (Z.ltb_spec c.2 mx) as [Hlt|Hge].
    + destruct (IH c.2 (Some c)) as (mx' & r' & -> & Hlow & Hcases).
      exists mx', r'. split; [done|]. split.
      * intros c' [->|Hc']%elem_of_cons; [|by apply Hlow].
        destruct Hcases as [[-> _]|[? _]]; lia.
      * right. destruct Hcases as [[-> ->]|[Hlt' (c' & Hc' & -> & Heq)]].
        -- split; [done|]. exists c. split; [left|done].
        -- split; [lia|]. exists c'. split; [by right|done].
    + destruct (IH mx r) as (mx' & r' & -> & Hlow & Hcases).
      exists mx', r'. split; [done|]. split.
      * intros c' [->|Hc']%elem_of_cons; [|by apply Hlow].
        destruct Hcases as [[-> _]|[? _]]; lia.
      * destruct Hcases as [[-> ->]|[Hlt' (c' & Hc' & -> & Heq)]]; [by left|].
        right. split; [done|]. exists c'. split; [by right|done].
Qed.

Lemma collect_child_Some (r : span) tree (acc : list span) :
  foldM (collect_child (Some r)) acc tree
  = Ok (acc ++ filter (λ c, inside r c = true) tree).
Proof.
  revert acc. induction tree as [|c tree IH]; intros acc; simpl.
  - by rewrite app_nil_r.
  - destruct (inside r c) eqn:Hin; simpl.
    + rewrite IH, filter_cons_True by done. by rewrite <- app_assoc.
    + rewrite IH, filter_cons_False; [done|]. by rewrite Hin.
Qed.

Lemma collect_child_None tree (acc : list span) :
  foldM (collect_child None) acc tree
  = match tree with [] => Ok acc | _ :: _ => Raise TypeError end.
Proof. by destruct tree. Qed.

Lemma findParent_member tree sp :
  sp ∈ tree → findParent tree sp = Ok (Some sp, [sp]).
Proof. intros Hin. unfold findParent. by rewrite bool_decide_eq_true_2. Qed.

(** Away from the initial value 1000 of [mx] the closest ancestor is found. *)
Lemma findParent_closest tree sp :
  sp ∉ tree →
  (∃ c, c ∈ tree ∧ covers c sp = true ∧ (c.2 < 1000)%Z) →
  ∃ root,
    findParent tree sp = Ok (Some root, filter (λ c, inside root c = true) tree) ∧
    root ∈ tree ∧ covers root sp = true ∧
    (∀ c, c ∈ tree → covers c sp = true → (root.2 ≤ c.2)%Z).
Proof.
  intros Hnin (c0 & Hc0 & Hcov0 & Hlt0). unfold findParent.
  rewrite bool_decide_eq_false_2 by done.
  destruct (pick_min_fold (filter (λ c, covers c sp = true) tree) 1000 None)
    as (mx' & r' & -> & Hlow & Hcases).
  assert (c0 ∈ filter (λ c, covers c sp = true) tree) as Hc0'
    by (by apply list_elem_of_filter).
  destruct Hcases as [[-> ->]|[_ (root & Hroot & -> & Heq)]].
  - specialize (Hlow _ Hc0'). lia.
  - apply list_elem_of_filter in Hroot as [Hcov Hroot].
    exists root. rewrite collect_child_Some. simpl. split; [done|].
    split; [done|]. split; [done|].
    intros c Hc Hcov'. rewrite Heq. apply Hlow. by apply list_elem_of_filter.
Qed.

Lemma filter_covers_nil tree sp :
  ¬ has_cover tree sp → filter (λ c, covers c sp = true) tree = [].
Proof.
  intros Hnc. induction tree as [|c tree IH]; [done|].
  rewrite filter_cons_False.
  - apply IH. intros (c' & Hc' & Hcov). apply Hnc. exists c'. split; [by right|done].
  - intros Hcov. apply Hnc. exists c. split; [left|done].
Qed.

(** C7 (defect).  The search for the shortest covering span starts from
    [mx = 1000] and keeps a span only when its length is strictly below [mx].
    On the tree [{(0, 1000)}] and the target [(0, 1)] the target is not a
    member and [(0, 1000)] covers it, yet no root is selected and the third
    loop subscripts [None].  ([findParent_member] and [findParent_closest]
    give the stated behaviour for members and for covering spans shorter
    than 1000.) *)
Theorem findParent_sentinel_1000 :
  ((0, 1)%Z ∉ [(0, 1000)%Z]) ∧
  has_cover [(0, 1000)%Z] (0, 1)%Z ∧
  findParent [(0, 1000)%Z] (0, 1)%Z = Raise TypeError.
Proof.
  split; [|split].
  - intros Hin. apply list_elem_of_singleton in Hin. discriminate.
  - exists (0, 1000)%Z. split; [apply list_elem_of_singleton|]; reflexivity.
  - reflexivity.
Qed.

(** C8 (amended).  When the target is not a member of the tree and no span
    covers it, no explicit error is raised: on a non-empty tree the third
    loop subscripts the [None] root, a [TypeError]; on an empty tree the call
    returns [(None, [])]. *)
Theorem findParent_without_cover tree sp :
  sp ∉ tree → ¬ has_cover tree sp →
  findParent tree sp
  = match tree with [] => Ok (None, []) | _ :: _ => Raise TypeError end.
Proof.
  intros Hnin Hnc. unfold findParent.
  rewrite bool_decide_eq_false_2 by done.
  rewrite filter_covers_nil by done. simpl.
  rewrite collect_child_None. by destruct tree.
Qed.

Lemma findParent_without_cover_witness :
  ((0, 1)%Z ∉ [(5, 1)%Z]) ∧ ¬ has_cover [(5, 1)%Z] (0, 1)%Z ∧
  findParent [(5, 1)%Z] (0, 1)%Z = Raise TypeError.
Proof.
  assert ((0, 1)%Z ∉ [(5, 1)%Z]) as Hnin.
  { intros Hin. apply list_elem_of_singleton in Hin. discriminate. }
  assert (¬ has_cover [(5, 1)%Z] (0, 1)%Z) as Hnc.
  { intros (c & Hc & Hcov). apply list_elem_of_singleton in Hc. subst c. discriminate. }
  split; [exact Hnin|]. split; [exact Hnc|].
  exact (findParent_without_cover [(5, 1)%Z] (0, 1)%Z Hnin Hnc).
Defined.

(** C8 as stated fails: the target [(0, 1)] is neither in the tree
    [{(5, 1)}] nor covered by it, and the call ends in the [TypeError] of
    subscripting [None], not in an error of its own. *)
Lemma findParent_uncovered_dereferences_None :
  ((0, 1)%Z ∉ [(5, 1)%Z]) ∧ ¬ has_cover [(5, 1)%Z] (0, 1)%Z ∧
  findParent [(5, 1)%Z] (0, 1)%Z = Raise TypeError ∧
  ¬ (∃ msg, findParent [(5, 1)%Z] (0, 1)%Z = Raise (AssertionError msg)).
Proof.
  split; [|split; [|split]].
  - intros Hin. apply list_elem_of_singleton in Hin. discriminate.
  - intros (c & Hc & Hcov). apply list_elem_of_singleton in Hc. subst c. discriminate.
  - reflexivity.
  - intros [msg Hmsg]. discriminate.
Qed.

End find_parent.

(** ** [str_to_tuple] *)

Section str_to_tuple.

Lemma item_nested_ind (P : item → Prop) :
  (∀ s, P (Str s)) →
  (∀ ts, Forall P ts → P (Tuple ts)) →
  ∀ t, P t.
Proof.
  intros HStr HTuple. fix IH 1. intros [s|ts].
  - apply HStr.
  - apply HTuple. induction ts as [|t ts IHts]; constructor; [apply IH|apply IHts].
Qed.

(** *** Splitting a joined line gives the tokens back *)

Lemma split_space_nonempty (s : string) : split_space s ≠ [].
Proof.
  destruct s as [|c s]; simpl; [done|].
  destruct (Ascii.eqb c " "); [done|]. by destruct (split_space s).
Qed.

Lemma split_space_word (w : string) :
  no_space w = true → split_space w = [w].
Proof.
  induction w as [|c w IH]; simpl; [done|].
  intros [Hc Hw]%andb_prop. apply negb_true_iff in Hc. rewrite Hc.
  by rewrite IH.
Qed.

Lemma split_space_cons (w s : string) :
  no_space w = true →
  split_space (w +:+ String " " s) = w :: split_space s.
Proof.
  induction w as [|c w IH]; simpl; [done|].
  intros [Hc Hw]%andb_prop. apply negb_true_iff in Hc. rewrite Hc.
  by rewrite IH.
Qed.

Lemma split_join (ws : list string) :
  ws ≠ [] → Forall (λ w, no_space w = true) ws →
  split_space (join_space ws) = ws.
Proof.
  induction ws as [|w ws IH]; [done|]. intros _ Hall.
  apply Forall_cons in Hall as [Hw Hws].
  destruct ws as [|w' ws]; [by apply split_space_word|].
  change (join_space (w :: w' :: ws)) with (w +:+ String " " (join_space (w' :: ws))).
  rewrite split_space_cons by done. by rewrite IH.
Qed.

Lemma tokens_of_nonempty (t : item) : tokens_of t ≠ [].
Proof. by destruct t. Qed.

Lemma is_word_no_space (w : string) : is_word w = true → no_space w = true.
Proof. unfold is_word. by intros [_ ?]%andb_prop. Qed.

Lemma tokens_of_no_space (t : item) :
  well_formed t = true → Forall (λ w, no_space w = true) (tokens_of t).
Proof.
  induction t as [w|ts IH] using item_nested_ind; simpl; intros Hwf.
  - constructor; [by apply is_word_no_space|constructor].
  - constructor; [done|]. apply Forall_app. split; [|by repeat constructor].
    induction IH as [|t ts Ht _ IHts]; simpl in *; [constructor|].
    apply andb_prop in Hwf as [Hwf1 Hwf2].
    apply Forall_app. split; [by apply Ht|by apply IHts].
Qed.

(** *** The stack machine *)

Lemma well_formed_not_open (t : item) : well_formed t = true → is_open t = false.
Proof.
  destruct t as [w|ts]; simpl; [|done]. unfold is_word.
  intros [[Ho _]%andb_prop _]%andb_prop. by apply negb_true_iff in Ho.
Qed.

Lemma pop_until_open_bracket (l stack inside : list item) :
  Forall (λ x, is_open x = false) l →
  pop_until_open (l ++ Str "(" :: stack) inside = (Str "(" :: stack, rev l ++ inside).
Proof.
  intros Hl. revert inside. induction Hl as [|x l Hx _ IH]; intros inside; simpl.
  - done.
  - rewrite Hx, IH. by rewrite <- app_assoc.
Qed.

Lemma push_word (stack : list item) (w : string) :
  is_word w = true → push_token stack w = Str w :: stack.
Proof.
  unfold is_word, push_token.
  intros [[_ Hc]%andb_prop _]%andb_prop. by rewrite Hc.
Qed.

Lemma push_close (l stack : list item) :
  Forall (λ x, is_open x = false) l →
  push_token (l ++ Str "(" :: stack) ")" = Tuple (rev l) :: stack.
Proof.
  intros Hl. unfold push_token. simpl.
  rewrite pop_until_open_bracket by done. by rewrite app_nil_r.
Qed.

(** Reading the tokens of a tree pushes that tree. *)
Lemma push_tokens_of (t : item) (stack : list item) :
  well_formed t = true →
  fold_left push_token (tokens_of t) stack = t :: stack.
Proof.
  revert stack. induction t as [w|ts IH] using item_nested_ind; intros stack Hwf.
  - simpl. by rewrite push_word.
  - simpl in Hwf. cbn [tokens_of].
    change (fold_left push_token ("(" :: ?l) stack)
      with (fold_left push_token l (Str "(" :: stack)).
    rewrite fold_left_app.
    assert (∀ st, fold_left push_token (concat (map tokens_of ts)) st = rev ts ++ st)
      as Hchildren.
    { clear stack. induction IH as [|t ts Ht _ IHts]; intros st; [done|].
      simpl in *. apply andb_prop in Hwf as [Hwf1 Hwf2].
      rewrite fold_left_app, Ht, IHts by done. by rewrite <- app_assoc. }
    rewrite Hchildren. simpl.
    rewrite push_close.
    + by rewrite rev_involutive.
    + apply Forall_forall. intros x Hx%list_elem_of_In%in_rev%list_elem_of_In.
      apply well_formed_not_open.
      apply forallb_forall with (x := x) in Hwf; [done|by apply list_elem_of_In].
Qed.

(** C10.  On the text of one bracketed tree, its tokens separated by single
    spaces, [str_to_tuple] returns the parsing stack: a list of exactly one
    element, the nested tuple of the tree.  The tree is element [0] of the
    result, which is what [run_train] reads. *)
Theorem str_to_tuple_returns_stack (t : item) :
  well_formed t = true →
  str_to_tuple (join_space (tokens_of t)) = [t] ∧
  str_to_tuple (join_space (tokens_of t)) !! 0 = Some t.
Proof.
  intros Hwf.
  assert (str_to_tuple (join_space (tokens_of t)) = [t]) as Heq.
  { unfold str_to_tuple.
    rewrite split_join by (apply tokens_of_nonempty || by apply tokens_of_no_space).
    by rewrite push_tokens_of. }
  by rewrite Heq.
Qed.

Lemma str_to_tuple_returns_stack_witness :
  well_formed (Tuple [Tuple [Str "a"; Str "b"]; Str "c"]) = true ∧
  str_to_tuple "( ( a b ) c )" = [Tuple [Tuple [Str "a"; Str "b"]; Str "c"]] ∧
  str_to_tuple "( ( a b ) c )" !! 0 = Some (Tuple [Tuple [Str "a"; Str "b"]; Str "c"]).
Proof.
  split; [reflexivity|].
  exact (str_to_tuple_returns_stack (Tuple [Tuple [Str "a"; Str "b"]; Str "c"]) eq_refl).
Defined.

End str_to_tuple.

(** ** Loops over [range] *)

(** A loop over [range(a, a + k)] whose body either keeps the invariant [P]
    or raises [e] in a situation [Q]. *)
Lemma foldM_seq_inv {St : Type} (f : St → nat → result St)
    (P : nat → St → Prop) (Q : Prop) (e : exn) (k a : nat) (s0 : St) :
  P a s0 →
  (∀ i s, a ≤ i < a + k → P i s →
     (∃ s', f s i = Ok s' ∧ P (S i) s') ∨ (f s i = Raise e ∧ Q)) →
  (∃ s', foldM f s0 (seq a k) = Ok s' ∧ P (a + k) s')
  ∨ (foldM f s0 (seq a k) = Raise e ∧ Q).
Proof.
  revert a s0. induction k as [|k IH]; intros a s0 HP Hstep; simpl.
  - left. exists s0. by rewrite Nat.add_0_r.
  - destruct (Hstep a s0 ltac:(lia) HP) as [(s' & -> & HP')|[-> HQ]]; simpl.
    + replace (a + S k) with (S a + k) by lia.
      apply IH; [done|]. intros i s Hi. apply Hstep. lia.
    + by right.
Qed.

Lemma forM_map {A B : Type} (f : A → result B) (g : A → B) (l : list A) :
  (∀ x, x ∈ l → f x = Ok (g x)) → forM f l = Ok (map g l).
Proof.
  induction l as [|x l IH]; intros Hf; simpl; [done|].
  rewrite Hf by left. simpl. rewrite IH; [done|].
  intros y Hy. apply Hf. by right.
Qed.

Lemma py_get_Some {A : Type} (l : list A) (i : nat) (x : A) :
  l !! i = Some x → py_get l i = Ok x.
Proof. unfold py_get. by intros ->. Qed.

Lemma lookup_map_seq {A : Type} (f : nat → A) (k i : nat) :
  i < k → map f (seq 0 k) !! i = Some (f i).
Proof.
  intros Hi. change (map f (seq 0 k)) with (f <$> seq 0 k).
  rewrite list_lookup_fmap, lookup_seq_lt by done. done.
Qed.

Lemma zip_with_map_seq {A B C : Type} (h : A → B → C) (f : nat → A) (g : nat → B)
    (a k : nat) :
  zip_with h (map f (seq a k)) (map g (seq a k)) = map (λ i, h (f i) (g i)) (seq a k).
Proof.
  revert a. induction k as [|k IH]; intros a; simpl; [done|]. by rewrite IH.
Qed.

(** ** Shape of the chart *)

Lemma cell_cell_vec chart level pos b :
  cell chart level pos b = (v ← cell_vec chart level pos; v !! b).
Proof.
  unfold cell, cell_vec. destruct (chart !! level) as [row|]; [|done]. simpl.
  by destruct (row !! pos).
Qed.

Lemma chart_shape_cell_vec len batch_size chart level pos :
  chart_shape len batch_size chart → level + pos < len →
  ∃ row v, chart !! level = Some row ∧ row !! pos = Some v ∧
           cell_vec chart level pos = Some v ∧ length v = batch_size.
Proof.
  intros [Hlen Hrows] Hlt.
  destruct (lookup_lt_is_Some_2 chart level) as [row Hrow]; [lia|].
  destruct (Hrows _ _ Hrow) as [Hrl Hv].
  destruct (lookup_lt_is_Some_2 row pos) as [v Hpos]; [lia|].
  exists row, v. unfold cell_vec. rewrite Hrow. simpl. eauto.
Qed.

Lemma chart_shape_cell len batch_size chart level pos b :
  chart_shape len batch_size chart → level + pos < len → b < batch_size →
  cell chart level pos b = Some (cell_val chart level pos b).
Proof.
  intros Hshape Hlt Hb.
  destruct (chart_shape_cell_vec _ _ _ _ _ Hshape Hlt) as (row & v & _ & _ & Hv & Hlv).
  unfold cell_val. rewrite cell_cell_vec, Hv. simpl.
  destruct (lookup_lt_is_Some_2 v b) as [x Hx]; [lia|]. by rewrite Hx.
Qed.

Lemma chart_init_shape len batch_size :
  chart_shape len batch_size (chart_init len batch_size).
Proof.
  unfold chart_init. split; [by rewrite length_map, length_seq|].
  intros level row Hrow.
  change (map ?f ?l) with (f <$> l) in Hrow.
  rewrite list_lookup_fmap in Hrow.
  destruct (seq 0 len !! level) as [i|] eqn:Hi; [|done].
  apply lookup_seq in Hi as [-> Hlt]. simpl in Hrow. injection Hrow as <-.
  split; [by rewrite length_replicate|].
  intros pos v [-> _]%lookup_replicate. by rewrite length_replicate.
Qed.

Lemma chart_init_cell len batch_size level pos b :
  level + pos < len → b < batch_size →
  cell (chart_init len batch_size) level pos b = Some 1%Z.
Proof.
  intros Hlt Hb. unfold cell, chart_init.
  change (map ?f ?l) with (f <$> l).
  rewrite list_lookup_fmap, lookup_seq_lt by lia. simpl.
  rewrite lookup_replicate_2 by lia. simpl.
  by rewrite lookup_replicate_2.
Qed.

(** Writing one cell. *)
Lemma chart_set_spec len batch_size chart level pos valmax :
  chart_shape len batch_size chart → level + pos < len →
  length valmax = batch_size →
  ∃ chart', chart_set chart level pos valmax = Ok chart' ∧
    chart_shape len batch_size chart' ∧
    cell_vec chart' level pos = Some valmax ∧
    (∀ l p, (l, p) ≠ (level, pos) → cell_vec chart' l p = cell_vec chart l p).
Proof.
  intros Hshape Hlt Hvl.
  destruct (chart_shape_cell_vec _ _ _ _ _ Hshape Hlt) as (row & v & Hrow & Hpos & _ & _).
  destruct Hshape as [Hlen Hrows].
  destruct (Hrows _ _ Hrow) as [Hrl Hcells].
  unfold chart_set, py_set. rewrite (py_get_Some _ _ _ Hrow). simpl.
  rewrite decide_True by lia. simpl. rewrite decide_True by lia.
  eexists. split; [done|]. split; [|split].
  - split; [by rewrite length_insert|].
    intros l r Hr. destruct (decide (l = level)) as [->|Hne].
    + rewrite list_lookup_insert_eq in Hr by lia. injection Hr as <-.
      split; [by rewrite length_insert|].
      intros p w Hw. destruct (decide (p = pos)) as [->|Hnp].
      * rewrite list_lookup_insert_eq in Hw by lia. by injection Hw as <-.
      * rewrite list_lookup_insert_ne in Hw by done. by eapply Hcells.
    + rewrite list_lookup_insert_ne in Hr by done. by apply Hrows.
  - unfold cell_vec. rewrite list_lookup_insert_eq by lia. simpl.
    by rewrite list_lookup_insert_eq by lia.
  - intros l p Hne. unfold cell_vec.
    destruct (decide (l = level)) as [->|Hl].
    + rewrite list_lookup_insert_eq by lia. rewrite Hrow. simpl.
      rewrite list_lookup_insert_ne; [done|]. congruence.
    + by rewrite list_lookup_insert_ne.
Qed.

(** ** The book-keeping of forced splits *)

Section bookkeeping.

Context (len batch_size : nat) (spans : list (list span)).
Context (Hspans : length spans = batch_size).
Context (level pos : nat) (Hlevel : 1 ≤ level) (Hpos : level + pos < len).

Let span_sets : list (gset span) := map (λ span_lst, list_to_set span_lst) spans.
Let error : exn := AssertionError "Only one valid tree.".

Lemma in_set_spec (b size : nat) (sp : span) :
  b < batch_size →
  in_set span_sets b size sp
  = Ok (bool_decide (size = 1) || bool_decide (sp ∈ span_set spans b)).
Proof.
  intros Hb. unfold in_set. destruct (decide (size = 1)) as [Hs|Hs].
  - by rewrite bool_decide_eq_true_2.
  - rewrite bool_decide_eq_false_2 by done. simpl.
    destruct (lookup_lt_is_Some_2 spans b) as [l Hl]; [lia|].
    unfold span_sets, span_set.
    rewrite (py_get_Some _ _ (list_to_set l)).
    + simpl. by rewrite Hl.
    + change (map ?f ?l) with (f <$> l). by rewrite list_lookup_fmap, Hl.
Qed.

Lemma identify_spec (idx b : nat) (tc : list nat) (ta : list bool) :
  b < batch_size → length tc = batch_size → length ta = batch_size →
  identify span_sets idx (idx + 1) (level - idx - 1 + 1)
    (Z.of_nat pos, Z.of_nat (idx + 1))
    (Z.of_nat (pos + idx + 1), Z.of_nat (level - idx - 1 + 1)) (tc, ta) b
  = if forced (span_set spans b) level pos idx then
      match ta !! b with
      | Some false => Ok (<[b:=idx]> tc, <[b:=true]> ta)
      | _ => Raise error
      end
    else Ok (tc, ta).
Proof.
  intros Hb Htc Hta. unfold identify.
  rewrite !in_set_spec by done. simpl.
  unfold forced. destruct ((_ || _) && _); [|done].
  unfold py_set. rewrite Htc, Hta, !decide_True by lia. simpl.
  destruct (lookup_lt_is_Some_2 ta b) as [flag Hflag]; [lia|].
  rewrite (py_get_Some _ _ _ Hflag), Hflag. simpl. by destruct flag.
Qed.

(** The loop over [batch_idx] for the split [j]. *)
Lemma identify_loop (j : nat) (tc : list nat) (ta : list bool) :
  j < level →
  length tc = batch_size → length ta = batch_size →
  (∀ b, b < batch_size → book (span_set spans b) level pos j (tc !! b) (ta !! b)) →
  (∃ tc' ta',
     foldM (identify span_sets j (j + 1) (level - j - 1 + 1)
              (Z.of_nat pos, Z.of_nat (j + 1))
              (Z.of_nat (pos + j + 1), Z.of_nat (level - j - 1 + 1)))
           (tc, ta) (seq 0 batch_size) = Ok (tc', ta') ∧
     length tc' = batch_size ∧ length ta' = batch_size ∧
     ∀ b, b < batch_size →
       book (span_set spans b) level pos (S j) (tc' !! b) (ta' !! b))
  ∨ (foldM (identify span_sets j (j + 1) (level - j - 1 + 1)
              (Z.of_nat pos, Z.of_nat (j + 1))
              (Z.of_nat (pos + j + 1), Z.of_nat (level - j - 1 + 1)))
           (tc, ta) (seq 0 batch_size) = Raise error
     ∧ ambiguous len batch_size spans).
Proof.
  intros Hj Htc Hta Hbook.
  pose (P := λ (m : nat) (st : list nat * list bool),
    length st.1 = batch_size ∧ length st.2 = batch_size ∧
    ∀ b, b < batch_size →
      book (span_set spans b) level pos (if decide (b < m) then S j else j)
           (st.1 !! b) (st.2 !! b)).
  destruct (foldM_seq_inv
              (identify span_sets j (j + 1) (level - j - 1 + 1)
                 (Z.of_nat pos, Z.of_nat (j + 1))
                 (Z.of_nat (pos + j + 1), Z.of_nat (level - j - 1 + 1)))
              P (ambiguous len batch_size spans) error batch_size 0 (tc, ta))
    as [([tc' ta'] & Hrun & Htc' & Hta' & Hbook')|Hraise].
  - split; [done|]. split; [done|]. intros b Hb. simpl. by apply Hbook.
  - intros m [tc1 ta1] Hm (Htc1 & Hta1 & Hbook1). cbn [fst snd] in Htc1, Hta1, Hbook1.
    rewrite identify_spec by (done || lia).
    pose proof (Hbook1 m ltac:(lia)) as Hm1. rewrite decide_False in Hm1 by lia.
    destruct (forced (span_set spans m) level pos j) eqn:Hforced.
    + destruct Hm1 as [(Hflag & Hchoose & Hnone)|(Hflag & i & Hi & Hfi & _)].
      * left. rewrite Hflag. eexists. split; [done|]. unfold P. simpl.
        rewrite !length_insert. split; [done|]. split; [done|].
        intros b Hb. destruct (decide (b = m)) as [->|Hne].
        -- rewrite decide_True by lia.
           rewrite !list_lookup_insert_eq by lia.
           right. split; [done|]. exists j. split; [lia|]. split; [done|].
           split; [done|]. intros i' Hi' Hfi'.
           destruct (decide (i' = j)) as [|Hij]; [done|].
           rewrite Hnone in Hfi' by lia. done.
        -- rewrite !list_lookup_insert_ne by done.
           specialize (Hbook1 b Hb).
           destruct (decide (b < m)), (decide (b < S m)); try lia; done.
      * right. rewrite Hflag. split; [done|].
        exists level, pos, m, i, j. repeat split; try done; lia.
    + left. eexists. split; [done|]. unfold P. simpl.
      split; [done|]. split; [done|]. intros b Hb.
      destruct (decide (b = m)) as [->|Hne].
      * rewrite decide_True by lia.
        destruct Hm1 as [(Hflag & Hchoose & Hnone)|(Hflag & i & Hi & Hfi & Hch & Huniq)].
        -- left. split; [done|]. split; [done|]. intros i Hi.
           destruct (decide (i = j)) as [->|]; [done|]. apply Hnone. lia.
        -- right. split; [done|]. exists i. split; [lia|]. split; [done|].
           split; [done|]. intros i' Hi' Hfi'.
           destruct (decide (i' = j)) as [->|]; [congruence|]. apply Huniq; [lia|done].
      * specialize (Hbook1 b Hb).
        destruct (decide (b < m)), (decide (b < S m)); try lia; done.
  - left. exists tc', ta'. split; [done|]. cbn [fst snd] in Htc', Hta', Hbook'.
    split; [done|]. split; [done|].
    intros b Hb. specialize (Hbook' b Hb). by rewrite decide_True in Hbook' by lia.
  - by right.
Qed.

End bookkeeping.

(** ** Filling one cell *)

Lemma forM_fmap {A B C : Type} (f : B → result C) (g : A → B) (h : A → C) (l : list A) :
  (∀ x, x ∈ l → f (g x) = Ok (h x)) → forM f (map g l) = Ok (map h l).
Proof.
  induction l as [|x l IH]; intros Hf; simpl; [done|].
  rewrite Hf by left. simpl. rewrite IH; [done|].
  intros y Hy. apply Hf. by right.
Qed.

Lemma first_argmax_ext (f g : nat → Z) (n i : nat) :
  (∀ j, j < n → f j = g j) → first_argmax f n i → first_argmax g n i.
Proof.
  intros Hfg (Hi & Hmax & Hfirst). split; [done|]. split.
  - intros j Hj. rewrite <- !Hfg by lia. by apply Hmax.
  - intros j Hj. rewrite <- !Hfg by lia. by apply Hfirst.
Qed.

Lemma argmax_from_spec (f : nat → Z) (k i best_i : nat) :
  best_i < i →
  (∀ j, j < i → (f j ≤ f best_i)%Z) →
  (∀ j, j < best_i → (f j < f best_i)%Z) →
  first_argmax f (i + k) (argmax_from best_i (f best_i) i (map f (seq i k))).
Proof.
  revert i best_i. induction k as [|k IH]; intros i best_i Hlt Hmax Hfirst; simpl.
  - rewrite Nat.add_0_r. by split.
  - replace (i + S k) with (S i + k) by lia.
    destruct (Z.ltb_spec (f best_i) (f i)) as [Hbetter|Hnot].
    + apply IH; [lia| |].
      * intros j Hj. destruct (decide (j = i)) as [->|]; [lia|].
        specialize (Hmax j ltac:(lia)). lia.
      * intros j Hj. specialize (Hmax j Hj). lia.
    + apply IH; [lia| |done].
      intros j Hj. destruct (decide (j = i)) as [->|]; [lia|]. apply Hmax. lia.
Qed.

Lemma argmax_spec (f : nat → Z) (n : nat) :
  1 ≤ n → first_argmax f n (argmax (map f (seq 0 n))).
Proof.
  intros Hn. destruct n as [|n]; [lia|]. simpl.
  apply (argmax_from_spec f n 1 0); [lia| |].
  - intros j Hj. replace j with 0 by lia. lia.
  - intros j Hj. lia.
Qed.

Section fill_cell.

Context (select : list (list Z) → list nat → list bool → list nat).
Context (select1 : list Z → nat → bool → nat).
Context (sel : gset span → (nat → Z) → nat → nat → nat → Prop).

(** [select] acts on each batch element on its own, and what it picks for
    an element whose book-keeping is complete is a split allowed by [sel]. *)
Context (Hselect_lookup : ∀ ps tc ta b row c flag,
  ps !! b = Some row → tc !! b = Some c → ta !! b = Some flag →
  select ps tc ta !! b = Some (select1 row c flag)).
Context (Hselect_sel : ∀ s f level pos c flag,
  1 ≤ level → book s level pos level (Some c) (Some flag) →
  sel s f level pos (select1 (map f (seq 0 level)) c flag) ∧
  select1 (map f (seq 0 level)) c flag < level).

Context (len batch_size : nat) (scalars : potentials) (spans : list (list span)).
Context (Hspans : length spans = batch_size).
Context (level pos : nat) (Hlevel : 1 ≤ level) (Hpos : level + pos < len).
Context (chart : list (list (list Z))) (Hshape : chart_shape len batch_size chart).

Let span_sets : list (gset span) := map (λ span_lst, list_to_set span_lst) spans.
Let error : exn := AssertionError "Only one valid tree.".
Let vec (l p : nat) : list Z := default [] (cell_vec chart l p).

Lemma vec_lookup (l p b : nat) :
  l + p < len → b < batch_size →
  py_get (vec l p) b = Ok (cell_val chart l p b).
Proof.
  intros Hlp Hb. apply py_get_Some.
  pose proof (chart_shape_cell _ _ _ _ _ _ Hshape Hlp Hb) as Hcell.
  rewrite cell_cell_vec in Hcell. unfold vec.
  destruct (cell_vec chart l p); [done|discriminate].
Qed.

(** The loop over [idx]. *)
Lemma split_loop :
  (∃ st,
     foldM (split_step chart scalars span_sets batch_size level pos)
           (cell_state_init batch_size) (seq 0 level) = Ok st ∧
     lps st = map (λ i, vec i pos) (seq 0 level) ∧
     rps st = map (λ i, vec (level - i - 1) (pos + i + 1)) (seq 0 level) ∧
     sps st = map (λ i, map (λ b, scalars level pos b i) (seq 0 batch_size))
                  (seq 0 level) ∧
     length (to_choose st) = batch_size ∧
     length (to_choose_assert st) = batch_size ∧
     ∀ b, b < batch_size →
       book (span_set spans b) level pos level
            (to_choose st !! b) (to_choose_assert st !! b))
  ∨ (foldM (split_step chart scalars span_sets batch_size level pos)
           (cell_state_init batch_size) (seq 0 level) = Raise error
     ∧ ambiguous len batch_size spans).
Proof.
  pose (P := λ (j : nat) (st : cell_state),
    lps st = map (λ i, vec i pos) (seq 0 j) ∧
    rps st = map (λ i, vec (level - i - 1) (pos + i + 1)) (seq 0 j) ∧
    sps st = map (λ i, map (λ b, scalars level pos b i) (seq 0 batch_size))
                 (seq 0 j) ∧
    length (to_choose st) = batch_size ∧
    length (to_choose_assert st) = batch_size ∧
    ∀ b, b < batch_size →
      book (span_set spans b) level pos j
           (to_choose st !! b) (to_choose_assert st !! b)).
  apply (foldM_seq_inv _ P (ambiguous len batch_size spans) error level 0).
  - unfold P. simpl. rewrite !length_replicate.
    repeat split; try done. intros b Hb. left.
    rewrite !lookup_replicate_2 by done. repeat split. intros i Hi. lia.
  - intros j st Hj (Hl & Hr & Hs & Htc & Hta & Hbook).
    unfold split_step.
    destruct (chart_shape_cell_vec len batch_size chart j pos Hshape ltac:(lia))
      as (l_row & lp & Hlrow & Hlp & Hlvec & _).
    destruct (chart_shape_cell_vec len batch_size chart (level - j - 1) (pos + j + 1)
                Hshape ltac:(lia))
      as (r_row & rp & Hrrow & Hrp & Hrvec & _).
    rewrite (py_get_Some _ _ _ Hlrow). cbn [mbind result_bind].
    rewrite (py_get_Some _ _ _ Hlp). cbn [mbind result_bind].
    rewrite (py_get_Some _ _ _ Hrrow). cbn [mbind result_bind].
    rewrite (py_get_Some _ _ _ Hrp). cbn [mbind result_bind].
    destruct (identify_loop len batch_size spans Hspans level pos Hlevel Hpos j
                (to_choose st) (to_choose_assert st) ltac:(lia) Htc Hta Hbook)
      as [(tc' & ta' & Hrun & Htc' & Hta' & Hbook')|[Hrun Hamb]].
    + left. unfold span_sets. rewrite Hrun. cbn [mbind result_bind].
      eexists. split; [done|]. unfold P. cbn [lps rps sps to_choose to_choose_assert fst snd].
      rewrite !seq_S, !map_app, Hl, Hr, Hs. cbn [map plus].
      unfold vec. rewrite Hlvec, Hrvec. done.
    + right. unfold span_sets. rewrite Hrun. done.
Qed.

(** The tensor of combined scores, one row per batch element. *)
Let ps : list (list Z) :=
  map (λ b, map (λ i, combined chart scalars level pos b i) (seq 0 level))
      (seq 0 batch_size).

Lemma cat1_vec (gl gp : nat → nat) :
  (∀ i, i < level → gl i + gp i < len) →
  cat1 batch_size (map (λ i, vec (gl i) (gp i)) (seq 0 level))
  = Ok (map (λ b, map (λ i, cell_val chart (gl i) (gp i) b) (seq 0 level))
            (seq 0 batch_size)).
Proof.
  intros Hg. unfold cat1. apply forM_map. intros b Hb%list_elem_of_In%in_seq.
  apply forM_fmap. intros i Hi%list_elem_of_In%in_seq.
  apply vec_lookup; [apply Hg|]; lia.
Qed.

Lemma cat1_scalars :
  cat1 batch_size
       (map (λ i, map (λ b, scalars level pos b i) (seq 0 batch_size)) (seq 0 level))
  = Ok (map (λ b, map (λ i, scalars level pos b i) (seq 0 level)) (seq 0 batch_size)).
Proof.
  unfold cat1. apply forM_map. intros b Hb%list_elem_of_In%in_seq.
  apply forM_fmap. intros i Hi%list_elem_of_In%in_seq.
  apply py_get_Some. apply (lookup_map_seq (λ b, scalars level pos b i)). lia.
Qed.

Lemma combined_rows :
  tensor_add
    (tensor_add
       (map (λ b, map (λ i, cell_val chart i pos b) (seq 0 level)) (seq 0 batch_size))
       (map (λ b, map (λ i, cell_val chart (level - i - 1) (pos + i + 1) b)
                      (seq 0 level))
            (seq 0 batch_size)))
    (map (λ b, map (λ i, scalars level pos b i) (seq 0 level)) (seq 0 batch_size))
  = ps.
Proof.
  unfold ps, tensor_add. rewrite !zip_with_map_seq.
  apply map_ext. intros b. by rewrite !zip_with_map_seq.
Qed.

Lemma fill_cell_spec :
  (∃ chart',
     fill_cell select scalars span_sets batch_size level chart pos = Ok chart' ∧
     chart_shape len batch_size chart' ∧
     (∀ l p, (l, p) ≠ (level, pos) → cell_vec chart' l p = cell_vec chart l p) ∧
     (∀ b, b < batch_size →
        ∃ idx, sel (span_set spans b) (combined chart scalars level pos b) level pos idx ∧
               idx < level ∧
               cell chart' level pos b = Some (combined chart scalars level pos b idx)) ∧
     (∀ b i j, b < batch_size → i < level → j < level →
        forced (span_set spans b) level pos i = true →
        forced (span_set spans b) level pos j = true → i = j))
  ∨ (fill_cell select scalars span_sets batch_size level chart pos = Raise error
     ∧ ambiguous len batch_size spans).
Proof.
  unfold fill_cell.
  destruct split_loop as [(st & -> & Hl & Hr & Hs & Htc & Hta & Hbook)|[-> Hamb]];
    [|by right].
  left. cbn [mbind result_bind]. rewrite Hl, Hr, Hs.
  assert (cat1 batch_size (map (λ i, vec i pos) (seq 0 level))
          = Ok (map (λ b, map (λ i, cell_val chart i pos b) (seq 0 level))
                    (seq 0 batch_size))) as ->
    by (apply (cat1_vec (λ i, i) (λ _, pos)); intros; lia).
  cbn [mbind result_bind].
  assert (cat1 batch_size (map (λ i, vec (level - i - 1) (pos + i + 1)) (seq 0 level))
          = Ok (map (λ b, map (λ i, cell_val chart (level - i - 1) (pos + i + 1) b)
                              (seq 0 level))
                    (seq 0 batch_size))) as ->
    by (apply (cat1_vec (λ i, level - i - 1) (λ i, pos + i + 1)); intros; lia).
  cbn [mbind result_bind].
  rewrite cat1_scalars. cbn [mbind result_bind].
  rewrite combined_rows.
  (* what [select] picks for each batch element *)
  pose (pick := λ b, select1 (map (combined chart scalars level pos b) (seq 0 level))
                             (default 0 (to_choose st !! b))
                             (default false (to_choose_assert st !! b))).
  assert (∀ b, b < batch_size →
            select ps (to_choose st) (to_choose_assert st) !! b = Some (pick b) ∧
            sel (span_set spans b) (combined chart scalars level pos b) level pos (pick b) ∧
            pick b < level) as Hpick.
  { intros b Hb.
    destruct (lookup_lt_is_Some_2 (to_choose st) b) as [c Hc]; [lia|].
    destruct (lookup_lt_is_Some_2 (to_choose_assert st) b) as [flag Hflag]; [lia|].
    specialize (Hbook b Hb). unfold pick. rewrite Hc, Hflag in *. cbn [default].
    split; [|by apply Hselect_sel].
    apply Hselect_lookup; [|done|done]. unfold ps.
    by apply (lookup_map_seq
                (λ b, map (λ i, combined chart scalars level pos b i) (seq 0 level))). }
  assert (gather batch_size ps (select ps (to_choose st) (to_choose_assert st))
          = Ok (map (λ b, combined chart scalars level pos b (pick b)) (seq 0 batch_size)))
    as ->.
  { unfold gather. apply forM_map. intros b Hb%list_elem_of_In%in_seq.
    destruct (Hpick b ltac:(lia)) as (Hsel & _ & Hlt).
    assert (py_get ps b
            = Ok (map (λ i, combined chart scalars level pos b i) (seq 0 level))) as ->.
    { apply py_get_Some. unfold ps.
      apply (lookup_map_seq
               (λ b, map (λ i, combined chart scalars level pos b i) (seq 0 level))).
      lia. }
    cbn [mbind result_bind]. rewrite (py_get_Some _ _ _ Hsel). cbn [mbind result_bind].
    apply py_get_Some.
    by apply (lookup_map_seq (λ i, combined chart scalars level pos b i)). }
  cbn [mbind result_bind].
  destruct (chart_set_spec len batch_size chart level pos
              (map (λ b, combined chart scalars level pos b (pick b)) (seq 0 batch_size))
              Hshape Hpos) as (chart' & -> & Hshape' & Hnew & Hold).
  { by rewrite length_map, length_seq. }
  exists chart'. split; [done|]. split; [done|]. split; [done|]. split.
  - intros b Hb. exists (pick b). destruct (Hpick b Hb) as (_ & Hsel & Hlt).
    split; [done|]. split; [done|].
    rewrite cell_cell_vec, Hnew. simpl.
    by apply (lookup_map_seq (λ b, combined chart scalars level pos b (pick b))).
  - intros b i j Hb Hi Hj Hfi Hfj.
    destruct (Hbook b Hb) as [(_ & _ & Hnone)|(_ & i0 & _ & _ & _ & Huniq)].
    + rewrite Hnone in Hfi by done. discriminate.
    + rewrite (Huniq i Hi Hfi), (Huniq j Hj Hfj). done.
Qed.

End fill_cell.

(** ** Filling the chart *)

Lemma cell_val_agree chart chart' l p b :
  cell_vec chart' l p = cell_vec chart l p →
  cell_val chart' l p b = cell_val chart l p b.
Proof. intros Heq. unfold cell_val. by rewrite !cell_cell_vec, Heq. Qed.

(** The combined scores of a cell read rows below it only. *)
Lemma combined_agree chart chart' scalars level l p b i :
  (∀ l' p', l' < level → cell_vec chart' l' p' = cell_vec chart l' p') →
  l ≤ level → i < l →
  combined chart' scalars l p b i = combined chart scalars l p b i.
Proof.
  intros Hlow Hl Hi. unfold combined.
  rewrite (cell_val_agree chart chart' i p b) by (apply Hlow; lia).
  rewrite (cell_val_agree chart chart' (l - i - 1) (p + i + 1) b) by (apply Hlow; lia).
  done.
Qed.

Section fill_chart.

Context (select : list (list Z) → list nat → list bool → list nat).
Context (select1 : list Z → nat → bool → nat).
Context (sel : gset span → (nat → Z) → nat → nat → nat → Prop).
Context (Hselect_lookup : ∀ ps tc ta b row c flag,
  ps !! b = Some row → tc !! b = Some c → ta !! b = Some flag →
  select ps tc ta !! b = Some (select1 row c flag)).
Context (Hselect_sel : ∀ s f level pos c flag,
  1 ≤ level → book s level pos level (Some c) (Some flag) →
  sel s f level pos (select1 (map f (seq 0 level)) c flag) ∧
  select1 (map f (seq 0 level)) c flag < level).
Context (Hsel_ext : ∀ s f g level pos idx,
  (∀ j, j < level → f j = g j) → sel s f level pos idx → sel s g level pos idx).

Context (len batch_size : nat) (scalars : potentials) (spans : list (list span)).
Context (Hspans : length spans = batch_size).

Let span_sets : list (gset span) := map (λ span_lst, list_to_set span_lst) spans.
Let error : exn := AssertionError "Only one valid tree.".

(** The cells [ready] are filled as [sel] prescribes and have at most one
    forced split per batch element. *)
Let filled (ready : nat → nat → Prop) (chart : list (list (list Z))) : Prop :=
  chart_shape len batch_size chart ∧
  (∀ p b, p < len → b < batch_size → cell chart 0 p b = Some 1%Z) ∧
  (∀ l p b, 1 ≤ l → l + p < len → b < batch_size → ready l p →
     ∃ idx, idx < l ∧
            sel (span_set spans b) (combined chart scalars l p b) l p idx ∧
            cell chart l p b = Some (combined chart scalars l p b idx)) ∧
  (∀ l p b i j, 1 ≤ l → l + p < len → b < batch_size → ready l p →
     i < l → j < l →
     forced (span_set spans b) l p i = true →
     forced (span_set spans b) l p j = true → i = j).

Lemma fill_cell_step (level pos : nat) (chart : list (list (list Z))) :
  1 ≤ level → level + pos < len →
  filled (λ l p, l < level ∨ (l = level ∧ p < pos)) chart →
  (∃ chart',
     fill_cell select scalars span_sets batch_size level chart pos = Ok chart' ∧
     filled (λ l p, l < level ∨ (l = level ∧ p < S pos)) chart')
  ∨ (fill_cell select scalars span_sets batch_size level chart pos = Raise error
     ∧ ambiguous len batch_size spans).
Proof.
  intros Hlevel Hpos (Hshape & Hleaf & Hcells & Huniq).
  destruct (fill_cell_spec select select1 sel Hselect_lookup Hselect_sel
              len batch_size scalars spans Hspans level pos Hlevel Hpos chart Hshape)
    as [(chart' & Hrun & Hshape' & Hold & Hnew & Hone)|Hraise]; [|by right].
  left. exists chart'. split; [done|].
  assert (∀ l p b, (l, p) ≠ (level, pos) → cell chart' l p b = cell chart l p b)
    as Hcell_old.
  { intros l p b Hne. by rewrite !cell_cell_vec, Hold. }
  assert (∀ l p b i, l ≤ level → i < l →
            combined chart' scalars l p b i = combined chart scalars l p b i)
    as Hcomb.
  { intros l p b i Hl Hi. apply (combined_agree chart chart' scalars level); [|done|done].
    intros l' p' Hl'. apply Hold. intros [= -> _]. lia. }
  split; [done|]. split; [|split].
  - intros p b Hp Hb. rewrite Hcell_old; [by apply Hleaf|]. intros [= <- _]. lia.
  - intros l p b Hl Hlp Hb Hready.
    destruct (decide ((l, p) = (level, pos))) as [[= -> ->]|Hne].
    + destruct (Hnew b Hb) as (idx & Hsel & Hidx & Hcell).
      exists idx. split; [done|]. split.
      * apply (Hsel_ext _ (combined chart scalars level pos b)); [|done].
        intros j Hj. symmetry. by apply Hcomb.
      * rewrite Hcell. by rewrite Hcomb.
    + assert (l < level ∨ (l = level ∧ p < pos)) as Hready'.
      { destruct Hready as [?|[-> ?]]; [by left|]. right. split; [done|].
        destruct (decide (p = pos)) as [->|]; [done|lia]. }
      destruct (Hcells l p b Hl Hlp Hb Hready') as (idx & Hidx & Hsel & Hcell).
      assert (l ≤ level) as Hle by lia.
      exists idx. split; [done|]. split.
      * apply (Hsel_ext _ (combined chart scalars l p b)); [|done].
        intros j Hj. symmetry. by apply Hcomb.
      * rewrite Hcell_old, Hcell by done. by rewrite Hcomb.
  - intros l p b i j Hl Hlp Hb Hready Hi Hj Hfi Hfj.
    destruct (decide ((l, p) = (level, pos))) as [[= -> ->]|Hne].
    + by apply (Hone b i j).
    + apply (Huniq l p b i j); try done.
      destruct Hready as [?|[-> ?]]; [by left|]. right. split; [done|].
      destruct (decide (p = pos)) as [->|]; [done|lia].
Qed.

Lemma filled_weaken (ready ready' : nat → nat → Prop) chart :
  (∀ l p, l + p < len → ready' l p → ready l p) →
  filled ready chart → filled ready' chart.
Proof.
  intros Himp (Hshape & Hleaf & Hcells & Huniq).
  split; [done|]. split; [done|]. split.
  - intros l p b Hl Hlp Hb Hready. apply Hcells; auto.
  - intros l p b i j Hl Hlp Hb Hready. apply Huniq; auto.
Qed.

(** The loop over [pos] for one [level]. *)
Lemma fill_level_step (level : nat) (chart : list (list (list Z))) :
  1 ≤ level → level < len →
  filled (λ l p, l < level) chart →
  (∃ chart',
     fill_level select scalars span_sets len batch_size chart level = Ok chart' ∧
     filled (λ l p, l < S level) chart')
  ∨ (fill_level select scalars span_sets len batch_size chart level = Raise error
     ∧ ambiguous len batch_size spans).
Proof.
  intros Hlevel Hlt Hfilled. unfold fill_level.
  destruct (foldM_seq_inv
              (fill_cell select scalars span_sets batch_size level)
              (λ pos chart, filled (λ l p, l < level ∨ (l = level ∧ p < pos)) chart)
              (ambiguous len batch_size spans) error (len - level) 0 chart)
    as [(chart' & Hrun & Hfilled')|Hraise].
  - apply (filled_weaken (λ l p, l < level)); [|done]. intros l p _ [?|[_ ?]]; [done|lia].
  - intros pos chart1 Hpos Hfilled1. apply fill_cell_step; [done|lia|done].
  - left. exists chart'. split; [done|].
    apply (filled_weaken (λ l p, l < level ∨ (l = level ∧ p < 0 + (len - level))));
      [|done].
    intros l p Hlp Hl. lia.
  - by right.
Qed.

(** The chart at the end of the loop over [level], on a sequence that is
    not empty: either every cell is
    filled as [sel] prescribes and no cell has two forced splits, or the
    assertion of line 304 has failed and some cell has two forced splits. *)
Lemma backpointers_Ok :
  1 ≤ len → ∃ bp, backpointers len batch_size = Ok bp.
Proof.
  intros Hlen. eexists. unfold backpointers.
  apply (forM_map _ (λ _, <[0:=map Some (seq 0 len)]>
                            (map (λ i, replicate (len - i) None) (seq 0 len)))).
  intros ib _. unfold py_set. rewrite decide_True; [done|].
  rewrite length_map, length_seq. lia.
Qed.

Lemma fill_chart_spec :
  1 ≤ len →
  (∃ chart,
     fill_chart select len batch_size scalars spans = Ok chart ∧
     chart_shape len batch_size chart ∧
     chart_filled sel len batch_size scalars spans chart ∧
     ¬ ambiguous len batch_size spans)
  ∨ (fill_chart select len batch_size scalars spans = Raise error
     ∧ ambiguous len batch_size spans).
Proof.
  intros Hlen. unfold fill_chart.
  destruct (backpointers_Ok Hlen) as [bp ->]. cbn [mbind result_bind].
  destruct (foldM_seq_inv
              (fill_level select scalars span_sets len batch_size)
              (λ level chart, filled (λ l p, l < level) chart)
              (ambiguous len batch_size spans) error (len - 1) 1
              (chart_init len batch_size))
    as [(chart & Hrun & Hshape & Hleaf & Hcells & Huniq)|Hraise].
  - split; [apply chart_init_shape|]. split; [|split].
    + intros p b Hp Hb. by apply chart_init_cell.
    + intros l p b Hl Hlp Hb Hready. lia.
    + intros l p b i j Hl Hlp Hb Hready. lia.
  - intros level chart Hlevel Hfilled. apply fill_level_step; [lia|lia|done].
  - left. exists chart. split; [done|]. split; [done|]. split.
    + split; [apply Hshape|]. split; [done|].
      intros level pos b Hlevel Hpos Hb. apply Hcells; [done|done|done|lia].
    + intros (level & pos & b & i & j & Hlevel & Hpos & Hb & Hi & Hj & Hne & Hfi & Hfj).
      apply Hne. apply (Huniq level pos b i j); try done. lia.
  - by right.
Qed.

End fill_chart.

(** ** The two selection rules *)

Lemma select_override_lookup ps tc ta b row c flag :
  ps !! b = Some row → tc !! b = Some c → ta !! b = Some flag →
  select_override ps tc ta !! b = Some (pick_override row c flag).
Proof.
  intros Hrow Hc Hflag. unfold select_override, pick_override.
  change (map ?f ?l) with (f <$> l).
  rewrite !lookup_zip_with, !list_lookup_fmap, Hrow, Hc, Hflag. done.
Qed.

Lemma select_override_sel s f level pos c flag :
  1 ≤ level → book s level pos level (Some c) (Some flag) →
  selected_override s f level pos (pick_override (map f (seq 0 level)) c flag) ∧
  pick_override (map f (seq 0 level)) c flag < level.
Proof.
  intros Hlevel [(Hflag & Hc & Hnone)|(Hflag & i & Hi & Hfi & Hc & _)];
    injection Hflag as ->; injection Hc as ->; unfold pick_override; simpl.
  - rewrite Nat.mul_1_r, Nat.add_0_r.
    pose proof (argmax_spec f level Hlevel) as Hmax.
    split; [|apply Hmax]. split; [apply Hmax|]. by right.
  - rewrite Nat.mul_0_r. simpl. split; [|done]. split; [done|]. by left.
Qed.

Lemma selected_override_ext s f g level pos idx :
  (∀ j, j < level → f j = g j) →
  selected_override s f level pos idx → selected_override s g level pos idx.
Proof.
  intros Hfg [Hidx [Hforced|[Hnone Hmax]]]; (split; [done|]); [by left|].
  right. split; [done|]. by apply (first_argmax_ext f).
Qed.

Lemma select_given_lookup ps tc ta b (row : list Z) c (flag : bool) :
  ps !! b = Some row → tc !! b = Some c → ta !! b = Some flag →
  select_given ps tc ta !! b = Some (pick_given row c flag).
Proof. by intros _ Hc _. Qed.

Lemma select_given_sel s (f : nat → Z) level pos c flag :
  1 ≤ level → book s level pos level (Some c) (Some flag) →
  selected_given s f level pos (pick_given (map f (seq 0 level)) c flag) ∧
  pick_given (map f (seq 0 level)) c flag < level.
Proof.
  intros Hlevel [(Hflag & Hc & Hnone)|(Hflag & i & Hi & Hfi & Hc & _)];
    injection Hflag as ->; injection Hc as ->; unfold pick_given.
  - split; [|lia]. by right.
  - split; [|done]. by left.
Qed.

Lemma selected_given_ext s (f g : nat → Z) level pos idx :
  (∀ j, j < level → f j = g j) →
  selected_given s f level pos idx → selected_given s g level pos idx.
Proof. by intros _ H. Qed.

(** ** [get_score_for_spans] *)

Lemma fill_chart_override len batch_size scalars spans :
  1 ≤ len → length spans = batch_size →
  (∃ chart,
     fill_chart select_override len batch_size scalars spans = Ok chart ∧
     chart_shape len batch_size chart ∧
     chart_filled selected_override len batch_size scalars spans chart ∧
     ¬ ambiguous len batch_size spans)
  ∨ (fill_chart select_override len batch_size scalars spans
     = Raise (AssertionError "Only one valid tree.")
     ∧ ambiguous len batch_size spans).
Proof.
  intros Hlen Hspans.
  exact (fill_chart_spec select_override pick_override selected_override
           select_override_lookup select_override_sel selected_override_ext
           len batch_size scalars spans Hspans Hlen).
Qed.

Lemma fill_chart_given len batch_size scalars spans :
  1 ≤ len → length spans = batch_size →
  (∃ chart,
     fill_chart select_given len batch_size scalars spans = Ok chart ∧
     chart_shape len batch_size chart ∧
     chart_filled selected_given len batch_size scalars spans chart ∧
     ¬ ambiguous len batch_size spans)
  ∨ (fill_chart select_given len batch_size scalars spans
     = Raise (AssertionError "Only one valid tree.")
     ∧ ambiguous len batch_size spans).
Proof.
  intros Hlen Hspans.
  exact (fill_chart_spec select_given pick_given selected_given
           select_given_lookup select_given_sel selected_given_ext
           len batch_size scalars spans Hspans Hlen).
Qed.

(** [chart[-1][0]] on a chart of the right shape. *)
Lemma chart_root len batch_size chart :
  1 ≤ len → chart_shape len batch_size chart →
  ∃ root, (top ← py_index chart (-1); py_get top 0) = Ok root ∧
          cell_vec chart (len - 1) 0 = Some root ∧ length root = batch_size.
Proof.
  intros Hlen Hshape.
  destruct (chart_shape_cell_vec len batch_size chart (len - 1) 0 Hshape ltac:(lia))
    as (row & root & Hrow & Hroot & Hvec & Hl).
  exists root. split; [|done].
  destruct Hshape as [Hlength _]. unfold py_index.
  rewrite decide_False by lia. rewrite decide_True by lia.
  replace (Z.to_nat (Z.of_nat (length chart) + -1)) with (len - 1) by lia.
  rewrite (py_get_Some _ _ _ Hrow). simpl. by apply py_get_Some.
Qed.

(** A batch without constraints: only the single split of a cell of two
    tokens meets the condition of line 302. *)
Lemma forced_empty level pos idx :
  idx < level →
  forced ∅ level pos idx = true ↔ level = 1 ∧ idx = 0.
Proof.
  intros Hidx. unfold forced.
  rewrite andb_true_iff, !orb_true_iff, !bool_decide_eq_true.
  split.
  - intros [[?|Hin] [?|Hin']]; try lia; by apply not_elem_of_empty in Hin || apply not_elem_of_empty in Hin'.
  - intros [-> ->]. split; left; lia.
Qed.

Lemma span_set_empty spans b :
  Forall (λ span_lst, span_lst = []) spans → span_set spans b = ∅.
Proof.
  intros Hall. unfold span_set. destruct (spans !! b) as [l|] eqn:Hl; [|done].
  simpl. by rewrite (proj1 (Forall_lookup _ _) Hall _ _ Hl).
Qed.

Lemma unconstrained_unambiguous len batch_size spans :
  Forall (λ span_lst, span_lst = []) spans → ¬ ambiguous len batch_size spans.
Proof.
  intros Hall (level & pos & b & i & j & _ & _ & _ & Hi & Hj & Hne & Hfi & Hfj).
  rewrite span_set_empty in Hfi, Hfj by done.
  apply forced_empty in Hfi, Hfj; lia.
Qed.

Lemma get_score_for_spans_returns len batch_size scalars spans :
  1 ≤ len → length spans = batch_size → ¬ ambiguous len batch_size spans →
  ∃ chart root,
    fill_chart select_override len batch_size scalars spans = Ok chart ∧
    chart_shape len batch_size chart ∧
    chart_filled selected_override len batch_size scalars spans chart ∧
    get_score_for_spans len batch_size scalars spans = Ok root ∧
    cell_vec chart (len - 1) 0 = Some root ∧ length root = batch_size.
Proof.
  intros Hlen Hspans Hunamb.
  destruct (fill_chart_override len batch_size scalars spans Hlen Hspans)
    as [(chart & Hrun & Hshape & Hfilled & _)|[_ Hamb]]; [|done].
  destruct (chart_root len batch_size chart Hlen Hshape) as (root & Hroot & Hvec & Hl).
  exists chart, root. unfold get_score_for_spans. rewrite Hrun. done.
Qed.

Lemma get_score_for_spans_raises len batch_size scalars spans :
  length spans = batch_size → ambiguous len batch_size spans →
  get_score_for_spans len batch_size scalars spans
  = Raise (AssertionError "Only one valid tree.").
Proof.
  intros Hspans Hamb.
  assert (1 ≤ len) as Hlen.
  { destruct Hamb as (level & pos & _ & _ & _ & ? & ? & _). lia. }
  destruct (fill_chart_override len batch_size scalars spans Hlen Hspans)
    as [(chart & _ & _ & _ & Hunamb)|[Hrun _]]; [done|].
  unfold get_score_for_spans. by rewrite Hrun.
Qed.

(** C1.  On a sequence of [len ≥ 1] tokens, with one constraint set per
    batch element and no cell in which two splits are forced (the case in
    which the call returns), [get_score_for_spans] leaves a chart whose
    leaves hold 1 and whose cell [(level, pos)] holds, for batch element [b],
    [left + right + scalars[level][pos][b, idx]] with [left] read from
    [chart[idx][pos]] and [right] from [chart[level-idx-1][pos+idx+1]];
    [idx] is the forced split if there is one, and otherwise the first index
    at which the combined score is maximal.  The value returned is
    [chart[len-1][0]]. *)
Theorem get_score_for_spans_chart len batch_size scalars spans :
  1 ≤ len → length spans = batch_size → ¬ ambiguous len batch_size spans →
  ∃ chart root,
    fill_chart select_override len batch_size scalars spans = Ok chart ∧
    (∀ pos b, pos < len → b < batch_size → cell chart 0 pos b = Some 1%Z) ∧
    (∀ level pos b, 1 ≤ level → level + pos < len → b < batch_size →
       ∃ idx left right,
         idx < level ∧
         cell chart idx pos b = Some left ∧
         cell chart (level - idx - 1) (pos + idx + 1) b = Some right ∧
         cell chart level pos b = Some (left + right + scalars level pos b idx)%Z ∧
         (forced (span_set spans b) level pos idx = true
          ∨ ((∀ j, j < level → forced (span_set spans b) level pos j = false) ∧
             first_argmax (combined chart scalars level pos b) level idx))) ∧
    get_score_for_spans len batch_size scalars spans = Ok root ∧
    length root = batch_size ∧
    (∀ b, b < batch_size → root !! b = cell chart (len - 1) 0 b).
Proof.
  intros Hlen Hspans Hunamb.
  destruct (get_score_for_spans_returns len batch_size scalars spans Hlen Hspans Hunamb)
    as (chart & root & Hrun & Hshape & (_ & Hleaf & Hcells) & Hret & Hvec & Hl).
  exists chart, root. split; [done|]. split; [done|]. split; [|split; [done|split; [done|]]].
  - intros level pos b Hlevel Hpos Hb.
    destruct (Hcells level pos b Hlevel Hpos Hb) as (idx & Hidx & [_ Hsel] & Hcell).
    exists idx, (cell_val chart idx pos b),
      (cell_val chart (level - idx - 1) (pos + idx + 1) b).
    split; [done|].
    split; [apply (chart_shape_cell len batch_size); [done|lia|done]|].
    split; [apply (chart_shape_cell len batch_size); [done|lia|done]|].
    split; done.
  - intros b Hb. by rewrite cell_cell_vec, Hvec.
Qed.

Lemma get_score_for_spans_chart_witness :
  ∃ chart root,
    fill_chart select_override 3 1 (λ _ _ _ _, 0%Z) [[]] = Ok chart ∧
    get_score_for_spans 3 1 (λ _ _ _ _, 0%Z) [[]] = Ok root ∧
    (∀ b, b < 1 → root !! b = cell chart 2 0 b).
Proof.
  destruct (get_score_for_spans_chart 3 1 (λ _ _ _ _, 0%Z) [[]])
    as (chart & root & Hrun & _ & _ & Hret & _ & Hroot).
  - lia.
  - reflexivity.
  - apply unconstrained_unambiguous. repeat constructor.
  - exists chart, root. split; [exact Hrun|]. split; [exact Hret|exact Hroot].
Defined.

(** C4.  When, in some cell, two different splits both meet the condition
    of line 302 for one batch element, the call ends in the assertion error
    "Only one valid tree."; a call that returns has at most one forced split
    per cell and batch element. *)
Theorem get_score_for_spans_ambiguous len batch_size scalars spans :
  length spans = batch_size →
  (ambiguous len batch_size spans →
   get_score_for_spans len batch_size scalars spans
   = Raise (AssertionError "Only one valid tree.")) ∧
  (∀ root, get_score_for_spans len batch_size scalars spans = Ok root →
     ∀ level pos b i j,
       1 ≤ level → level + pos < len → b < batch_size → i < level → j < level →
       forced (span_set spans b) level pos i = true →
       forced (span_set spans b) level pos j = true → i = j).
Proof.
  intros Hspans. split.
  - by apply get_score_for_spans_raises.
  - intros root Hret level pos b i j Hlevel Hpos Hb Hi Hj Hfi Hfj.
    destruct (decide (i = j)) as [|Hne]; [done|].
    rewrite get_score_for_spans_raises in Hret; [done|done|].
    exists level, pos, b, i, j. done.
Qed.

Lemma get_score_for_spans_ambiguous_witness :
  get_score_for_spans 4 1 (λ _ _ _ _, 0%Z) [[(0, 3)%Z; (1, 3)%Z]]
  = Raise (AssertionError "Only one valid tree.").
Proof.
  apply (get_score_for_spans_ambiguous 4 1 (λ _ _ _ _, 0%Z) [[(0, 3)%Z; (1, 3)%Z]]).
  - reflexivity.
  - exists 3, 0, 0, 0, 2.
    split; [lia|]. split; [lia|]. split; [lia|]. split; [lia|]. split; [lia|].
    split; [lia|]. split; reflexivity.
Defined.

(** C9.  Without constraints the assertion cannot fail: the condition of
    line 302 holds for split 0 of the cells of level 1 and for no other
    split, so no cell has two forced splits and the call returns. *)
Theorem get_score_for_spans_unconstrained len batch_size scalars spans :
  1 ≤ len → length spans = batch_size →
  Forall (λ span_lst, span_lst = []) spans →
  (∀ level pos b idx, idx < level →
     forced (span_set spans b) level pos idx = true ↔ level = 1 ∧ idx = 0) ∧
  ¬ ambiguous len batch_size spans ∧
  ∃ root, get_score_for_spans len batch_size scalars spans = Ok root ∧
          length root = batch_size.
Proof.
  intros Hlen Hspans Hall. split; [|split].
  - intros level pos b idx Hidx. rewrite span_set_empty by done.
    by apply forced_empty.
  - by apply unconstrained_unambiguous.
  - destruct (get_score_for_spans_returns len batch_size scalars spans Hlen Hspans)
      as (chart & root & _ & _ & _ & Hret & _ & Hl).
    + by apply unconstrained_unambiguous.
    + by exists root.
Qed.

Lemma get_score_for_spans_unconstrained_witness :
  ∃ root, get_score_for_spans 3 2 (λ _ _ _ _, 0%Z) [[]; []] = Ok root ∧
          length root = 2.
Proof.
  refine (proj2 (proj2 (get_score_for_spans_unconstrained 3 2 (λ _ _ _ _, 0%Z) [[]; []]
                          _ _ _))).
  - lia.
  - reflexivity.
  - repeat constructor.
Defined.

(** ** Unconstrained scoring and bracketings *)

Lemma leaves_pos (t : btree) : 1 ≤ leaves t.
Proof. induction t; simpl; lia. Qed.

Lemma leaves_1 (t : btree) : leaves t = 1 → t = Leaf.
Proof.
  destruct t as [|l r]; [done|]. simpl.
  pose proof (leaves_pos l). pose proof (leaves_pos r). lia.
Qed.

Section unconstrained.

Context (len batch_size : nat) (scalars : potentials) (spans : list (list span)).
Context (Hempty : Forall (λ span_lst, span_lst = []) spans).
Context (chart : list (list (list Z))).
Context (Hshape : chart_shape len batch_size chart).
Context (Hfilled : chart_filled selected_override len batch_size scalars spans chart).

(** Each cell holds its number of tokens (the leaves, 1 each) plus the best
    sum of split potentials over the bracketings of its tokens. *)
Lemma unconstrained_cell (b : nat) (Hb : b < batch_size) (level : nat) :
  ∀ pos, level + pos < len →
    ∃ m, cell chart level pos b = Some (Z.of_nat (level + 1) + m)%Z ∧
         max_bracketing_score scalars b pos (level + 1) m.
Proof.
  induction level as [level IH] using lt_wf_ind. intros pos Hpos.
  destruct Hfilled as (_ & Hleaf & Hcells).
  destruct (decide (level = 0)) as [->|Hlevel].
  - exists 0%Z. split; [by rewrite Hleaf by lia|]. split.
    + intros t Ht. by rewrite (leaves_1 t Ht).
    + by exists Leaf.
  - destruct (Hcells level pos b ltac:(lia) Hpos Hb) as (idx & Hidx & [_ Hsel] & Hcell).
    (* the children of a split [k] *)
    assert (∀ k, k < level →
              ∃ ml mr,
                max_bracketing_score scalars b pos (k + 1) ml ∧
                max_bracketing_score scalars b (pos + k + 1) (level - k) mr ∧
                combined chart scalars level pos b k
                = (Z.of_nat (level + 1) + (ml + mr + scalars level pos b k))%Z)
      as Hsplit.
    { intros k Hk.
      destruct (IH k Hk pos ltac:(lia)) as (ml & Hl & Hml).
      destruct (IH (level - k - 1) ltac:(lia) (pos + k + 1) ltac:(lia))
        as (mr & Hr & Hmr).
      replace (level - k - 1 + 1) with (level - k) in Hr, Hmr by lia.
      exists ml, mr. split; [done|]. split; [done|].
      unfold combined, cell_val. rewrite Hl, Hr. simpl. lia. }
    (* the stored split is at least as good as any other *)
    assert (∀ k, k < level →
              (combined chart scalars level pos b k
               ≤ combined chart scalars level pos b idx)%Z) as Hbest.
    { intros k Hk. destruct Hsel as [Hforced|[_ (_ & Hmax & _)]]; [|by apply Hmax].
      rewrite span_set_empty in Hforced by done.
      apply forced_empty in Hforced as [-> ->]; [|done].
      replace k with 0 by lia. lia. }
    destruct (Hsplit idx Hidx) as (ml & mr & (_ & tl & Htl & Hsl) & (_ & tr & Htr & Hsr) & Hcomb).
    exists (ml + mr + scalars level pos b idx)%Z.
    split; [by rewrite Hcell, Hcomb|]. split.
    + intros t Ht. destruct t as [|l r].
      { simpl in Ht. lia. }
      simpl in Ht. pose proof (leaves_pos l) as Hl1. pose proof (leaves_pos r) as Hr1.
      destruct (Hsplit (leaves l - 1) ltac:(lia))
        as (ml' & mr' & (Hml' & _) & (Hmr' & _) & Hcomb').
      specialize (Hbest (leaves l - 1) ltac:(lia)).
      specialize (Hml' l ltac:(lia)).
      specialize (Hmr' r ltac:(lia)).
      simpl.
      replace (pos + (leaves l - 1) + 1) with (pos + leaves l) in Hmr' by lia.
      replace (leaves l + leaves r - 1) with level by lia.
      lia.
    + exists (Node tl tr). simpl. split; [lia|].
      rewrite Htl, Htr.
      replace (pos + (idx + 1)) with (pos + idx + 1) by lia.
      replace (idx + 1 + (level - idx) - 1) with level by lia.
      replace (idx + 1 - 1) with idx by lia.
      by rewrite Hsl, Hsr.
Qed.

End unconstrained.




(** ** [get_score_for_spans_given] and [get_score_for_spans_modified] *)

Lemma elem_of_zip_seq {A : Type} (l : list A) (i : nat) (x : A) :
  (i, x) ∈ zip (seq 0 (length l)) l → i < length l ∧ l !! i = Some x.
Proof.
  intros [k Hk]%list_elem_of_lookup.
  apply lookup_zip_Some in Hk as [Hseq Hx].
  apply lookup_seq in Hseq as [-> Hlt]. done.
Qed.

Lemma chart_roots_spec len batch_size chart root_list :
  chart_shape len batch_size chart →
  valid_roots len batch_size root_list →
  chart_roots chart root_list
  = Ok (map (λ '(bt, roots),
               map (λ root : span,
                      cell_val chart (Z.to_nat (root.2 - 1)) (Z.to_nat root.1) bt) roots)
            (zip (seq 0 (length root_list)) root_list)).
Proof.
  intros Hshape [Hlen Hvalid]. unfold chart_roots.
  apply forM_map. intros [bt roots] [Hbt Hroots]%elem_of_zip_seq.
  apply forM_map. intros [pos size] Hroot.
  destruct (Hvalid bt roots (pos, size) Hroots Hroot) as (Hpos & Hsize & Hend).
  cbn [fst snd] in *.
  destruct (chart_shape_cell_vec len batch_size chart
              (Z.to_nat (size - 1)) (Z.to_nat pos) Hshape ltac:(lia))
    as (row & v & Hrow & Hv & Hvec & Hl).
  unfold py_index. rewrite !decide_True by lia.
  rewrite (py_get_Some _ _ _ Hrow). cbn [mbind result_bind].
  rewrite decide_True by lia.
  rewrite (py_get_Some _ _ _ Hv). cbn [mbind result_bind].
  apply py_get_Some. unfold cell_val. rewrite cell_cell_vec, Hvec. simpl.
  destruct (lookup_lt_is_Some_2 v bt) as [x Hx]; [lia|]. by rewrite Hx.
Qed.

(** C6.  In the two fully constrained functions, on a sequence that is not
    empty and when no cell has two forced splits, each cell holds for each batch element the combined score at its
    forced split, or at split 0 when none is forced; the arg-max plays no
    part.  For each queried root [(pos, size)] of batch element [bt] the
    value reported is [chart[size-1][pos][bt]]. *)
Theorem get_score_for_spans_given_chart len batch_size scalars spans root_list :
  1 ≤ len → length spans = batch_size → ¬ ambiguous len batch_size spans →
  valid_roots len batch_size root_list →
  ∃ chart scores,
    fill_chart select_given len batch_size scalars spans = Ok chart ∧
    (∀ pos b, pos < len → b < batch_size → cell chart 0 pos b = Some 1%Z) ∧
    (∀ level pos b, 1 ≤ level → level + pos < len → b < batch_size →
       ∃ idx left right,
         idx < level ∧
         cell chart idx pos b = Some left ∧
         cell chart (level - idx - 1) (pos + idx + 1) b = Some right ∧
         cell chart level pos b = Some (left + right + scalars level pos b idx)%Z ∧
         (forced (span_set spans b) level pos idx = true
          ∨ ((∀ j, j < level → forced (span_set spans b) level pos j = false) ∧
             idx = 0))) ∧
    get_score_for_spans_given len batch_size scalars spans root_list = Ok scores ∧
    get_score_for_spans_modified len batch_size scalars spans root_list = Ok scores ∧
    length scores = length root_list ∧
    (∀ bt roots k root,
       root_list !! bt = Some roots → roots !! k = Some root →
       ∃ v, scores !! bt ≫= (.!! k) = Some v ∧
            cell chart (Z.to_nat (root.2 - 1)) (Z.to_nat root.1) bt = Some v).
Proof.
  intros Hlen1 Hspans Hunamb Hroots.
  destruct (fill_chart_given len batch_size scalars spans Hlen1 Hspans)
    as [(chart & Hrun & Hshape & (_ & Hleaf & Hcells) & _)|[_ Hamb]]; [|done].
  eexists chart, _. split; [done|]. split; [done|]. split.
  { intros level pos b Hlevel Hpos Hb.
    destruct (Hcells level pos b Hlevel Hpos Hb) as (idx & Hidx & Hsel & Hcell).
    exists idx, (cell_val chart idx pos b),
      (cell_val chart (level - idx - 1) (pos + idx + 1) b).
    split; [done|].
    split; [apply (chart_shape_cell len batch_size); [done|lia|done]|].
    split; [apply (chart_shape_cell len batch_size); [done|lia|done]|].
    split; [done|]. destruct Hsel as [[_ ?]|?]; [by left|by right]. }
  unfold get_score_for_spans_given, get_score_for_spans_modified. rewrite Hrun.
  cbn [mbind result_bind].
  rewrite (chart_roots_spec len batch_size chart root_list Hshape Hroots).
  split; [done|]. split; [done|].
  split; [by rewrite length_map, length_zip_with_l_eq; rewrite length_seq|].
  intros bt roots k [pos size] Hbt Hk. simpl.
  change (map ?f ?l) with (f <$> l). rewrite list_lookup_fmap.
  assert (zip (seq 0 (length root_list)) root_list !! bt = Some (bt, roots)) as ->.
  { apply lookup_zip_Some. split; [|done].
    apply lookup_seq. split; [done|]. by apply lookup_lt_Some in Hbt. }
  cbn. change (map ?f ?l) with (f <$> l). rewrite list_lookup_fmap.
  unfold span in *. rewrite Hk. cbn.
  eexists. split; [done|].
  destruct Hroots as [Hlen Hvalid].
  destruct (Hvalid bt roots (pos, size) Hbt) as (Hpos & Hsize & Hend).
  { apply list_elem_of_lookup. by exists k. }
  cbn [fst snd] in *. apply lookup_lt_Some in Hbt. unfold span in *.
  apply (chart_shape_cell len batch_size); [done|lia|lia].
Qed.

Lemma get_score_for_spans_given_chart_witness :
  ∃ chart scores,
    fill_chart select_given 3 1 (λ _ _ _ _, 0%Z) [[(0, 2)%Z]] = Ok chart ∧
    get_score_for_spans_given 3 1 (λ _ _ _ _, 0%Z) [[(0, 2)%Z]] [[(0, 3)%Z; (1, 2)%Z]]
    = Ok scores ∧
    get_score_for_spans_modified 3 1 (λ _ _ _ _, 0%Z) [[(0, 2)%Z]] [[(0, 3)%Z; (1, 2)%Z]]
    = Ok scores.
Proof.
  destruct (get_score_for_spans_given_chart 3 1 (λ _ _ _ _, 0%Z) [[(0, 2)%Z]]
              [[(0, 3)%Z; (1, 2)%Z]])
    as (chart & scores & Hrun & _ & _ & Hgiven & Hmodified & _).
  - lia.
  - reflexivity.
  - intros (level & pos & b & i & j & Hlevel & Hpos & Hb & Hi & Hj & Hne & Hfi & Hfj).
    assert (level = 2 ∧ pos = 0 ∧ b = 0) as (-> & -> & ->) by lia.
    assert ((i = 0 ∧ j = 1) ∨ (i = 1 ∧ j = 0)) as [[-> ->]|[-> ->]] by lia;
      vm_compute in Hfi, Hfj; discriminate.
  - split; [simpl; lia|]. intros bt roots root Hbt Hroot.
    destruct bt as [|bt]; [|by destruct bt]. injection Hbt as <-.
    apply elem_of_cons in Hroot as [->|Hroot]; [simpl; lia|].
    apply list_elem_of_singleton in Hroot as ->. simpl; lia.
  - exists chart, scores. split; [exact Hrun|]. split; [exact Hgiven|exact Hmodified].
Defined.

(** ** The two scenarios on four tokens *)

Lemma forced_true_iff (s : gset span) (level pos idx : nat) :
  forced s level pos idx = true ↔
  (idx = 0 ∨ (Z.of_nat pos, Z.of_nat (idx + 1)) ∈ s) ∧
  (level - idx - 1 = 0 ∨ (Z.of_nat (pos + idx + 1), Z.of_nat (level - idx - 1 + 1)) ∈ s).
Proof.
  unfold forced. rewrite andb_true_iff, !orb_true_iff, !bool_decide_eq_true.
  split; intros [[?|?] [?|?]]; (split; [(left; lia) || by right|(left; lia) || by right]).
Qed.

Lemma span_set_single (S : list span) (sp : span) :
  sp ∈ span_set [S] 0 ↔ sp ∈ S.
Proof. unfold span_set. simpl. apply elem_of_list_to_set. Qed.




Lemma first_argmax_unique (f : nat → Z) (n i j : nat) :
  first_argmax f n i → first_argmax f n j → i = j.
Proof.
  intros (Hi & Hmaxi & Hfirsti) (Hj & Hmaxj & Hfirstj).
  destruct (Nat.lt_trichotomy i j) as [Hlt|[->|Hlt]]; [|done|].
  - specialize (Hfirstj i Hlt). specialize (Hmaxi j Hj). lia.
  - specialize (Hfirsti j Hlt). specialize (Hmaxj i Hi). lia.
Qed.

Lemma filled_leaf_val sel len batch_size scalars spans chart pos b :
  chart_filled sel len batch_size scalars spans chart →
  pos < len → b < batch_size → cell_val chart 0 pos b = 1%Z.
Proof. intros (_ & Hleaf & _) Hpos Hb. unfold cell_val. by rewrite Hleaf. Qed.

Lemma filled_cell_val sel len batch_size scalars spans chart level pos b :
  chart_filled sel len batch_size scalars spans chart →
  1 ≤ level → level + pos < len → b < batch_size →
  ∃ idx, idx < level ∧
         sel (span_set spans b) (combined chart scalars level pos b) level pos idx ∧
         cell_val chart level pos b = combined chart scalars level pos b idx.
Proof.
  intros (_ & _ & Hcells) Hlevel Hpos Hb.
  destruct (Hcells level pos b Hlevel Hpos Hb) as (idx & Hidx & Hsel & Hcell).
  exists idx. split; [done|]. split; [done|]. unfold cell_val. by rewrite Hcell.
Qed.

(** Where the set [{(0, 2)}] forces a split on four tokens. *)
Lemma forced_0_2 (level pos idx : nat) :
  level + pos < 4 → idx < level →
  forced (span_set [[(0, 2)%Z]] 0) level pos idx = true →
  (level = 1 ∧ idx = 0) ∨ (level = 2 ∧ pos = 0 ∧ idx = 1).
Proof.
  intros Hpos Hidx.
  destruct level as [|[|[|[|level]]]]; try lia;
    destruct pos as [|[|[|pos]]]; try lia;
    destruct idx as [|[|[|idx]]]; try lia;
    vm_compute; intros Hf; try discriminate; lia.
Qed.

Lemma unambiguous_0_2 : ¬ ambiguous 4 1 [[(0, 2)%Z]].
Proof.
  intros (level & pos & b & i & j & Hlevel & Hpos & Hb & Hi & Hj & Hne & Hfi & Hfj).
  assert (b = 0) as -> by lia.
  apply forced_0_2 in Hfi, Hfj; lia.
Qed.

Section scenario.

Context (scalars : potentials) (free bound : list (list (list Z))).
Context (Hfree : chart_filled selected_override 4 1 scalars [[]] free).
Context (Hbound : chart_filled selected_override 4 1 scalars [[(0, 2)%Z]] bound).

Lemma scenario_leaf (pos : nat) :
  pos < 4 → cell_val free 0 pos 0 = 1%Z ∧ cell_val bound 0 pos 0 = 1%Z.
Proof.
  intros Hpos. split.
  - apply (filled_leaf_val _ _ _ _ _ _ _ _ Hfree); lia.
  - apply (filled_leaf_val _ _ _ _ _ _ _ _ Hbound); lia.
Qed.

Lemma scenario_level1 (pos : nat) :
  pos < 3 →
  cell_val free 1 pos 0 = (1 + 1 + scalars 1%nat pos 0%nat 0%nat)%Z ∧
  cell_val bound 1 pos 0 = (1 + 1 + scalars 1%nat pos 0%nat 0%nat)%Z.
Proof.
  intros Hpos.
  destruct (scenario_leaf pos ltac:(lia)) as [Hf0 Hb0].
  destruct (scenario_leaf (pos + 0 + 1) ltac:(lia)) as [Hf1 Hb1].
  split.
  - destruct (filled_cell_val _ _ _ _ _ _ 1 pos 0 Hfree) as (idx & Hidx & _ & ->);
      [lia..|].
    assert (idx = 0) as -> by lia. unfold combined. simpl. by rewrite Hf0, Hf1.
  - destruct (filled_cell_val _ _ _ _ _ _ 1 pos 0 Hbound) as (idx & Hidx & _ & ->);
      [lia..|].
    assert (idx = 0) as -> by lia. unfold combined. simpl. by rewrite Hb0, Hb1.
Qed.

(** The combined scores of the cells of level 2 read rows 0 and 1 only. *)
Lemma scenario_combined2 (pos idx : nat) :
  pos < 2 → idx < 2 →
  combined bound scalars 2 pos 0 idx = combined free scalars 2 pos 0 idx.
Proof.
  intros Hpos Hidx. unfold combined.
  assert (idx = 0 ∨ idx = 1) as [-> | ->] by lia; simpl.
  - destruct (scenario_leaf pos ltac:(lia)) as [-> ->].
    destruct (scenario_level1 (pos + 0 + 1) ltac:(lia)) as [-> ->]. done.
  - destruct (scenario_level1 pos ltac:(lia)) as [-> ->].
    destruct (scenario_leaf (pos + 1 + 1) ltac:(lia)) as [-> ->]. done.
Qed.

Lemma scenario_free_argmax (level pos : nat) :
  2 ≤ level → level + pos < 4 →
  ∃ idx, first_argmax (combined free scalars level pos 0) level idx ∧
         cell_val free level pos 0 = combined free scalars level pos 0 idx.
Proof.
  intros Hlevel Hpos.
  destruct (filled_cell_val _ _ _ _ _ _ level pos 0 Hfree)
    as (idx & Hidx & [_ [Hforced|[_ Hmax]]] & Hcell); [lia..| |by exists idx].
  apply forced_empty in Hforced; [lia|done].
Qed.

Lemma scenario_bound_argmax (level pos : nat) :
  2 ≤ level → level + pos < 4 → (level, pos) ≠ (2, 0) →
  ∃ idx, first_argmax (combined bound scalars level pos 0) level idx ∧
         cell_val bound level pos 0 = combined bound scalars level pos 0 idx.
Proof.
  intros Hlevel Hpos Hne.
  destruct (filled_cell_val _ _ _ _ _ _ level pos 0 Hbound)
    as (idx & Hidx & [_ [Hforced|[_ Hmax]]] & Hcell); [lia..| |by exists idx].
  apply forced_0_2 in Hforced as [[-> ->]|(-> & -> & ->)]; [lia|done|done|done].
Qed.

Lemma scenario_cell_2_1 : cell_val bound 2 1 0 = cell_val free 2 1 0.
Proof.
  destruct (scenario_free_argmax 2 1) as (i & Hi & ->); [lia..|].
  destruct (scenario_bound_argmax 2 1) as (j & Hj & ->); [lia|lia|congruence|].
  apply (first_argmax_ext _ (combined free scalars 2 1 0)) in Hj.
  - rewrite (first_argmax_unique _ _ _ _ Hi Hj).
    apply scenario_combined2; [lia|apply Hj].
  - intros k Hk. apply scenario_combined2; lia.
Qed.

(** In the cell of the span [(0, 3)] the split after [(0, 2)] is forced. *)
Lemma scenario_cell_2_0 :
  cell_val bound 2 0 0 = combined bound scalars 2 0 0 1 ∧
  (cell_val bound 2 0 0 ≤ cell_val free 2 0 0)%Z.
Proof.
  assert (cell_val bound 2 0 0 = combined bound scalars 2 0 0 1) as Hcell.
  { destruct (filled_cell_val _ _ _ _ _ _ 2 0 0 Hbound)
      as (idx & Hidx & [_ [Hforced|[Hnone _]]] & Hcell); [lia..| |].
    - apply forced_0_2 in Hforced as [[? _]|(_ & _ & ->)]; [lia|done|lia|lia].
    - specialize (Hnone 1 ltac:(lia)). by vm_compute in Hnone. }
  split; [done|]. rewrite Hcell, scenario_combined2 by lia.
  destruct (scenario_free_argmax 2 0) as (i & (_ & Hmax & _) & ->); [lia..|].
  apply Hmax. lia.
Qed.

Context (Hunique : unique_max_bracketing scalars 0 0 balanced4).

Lemma scenario_free_split1 :
  (combined free scalars 3 0 0 0 < combined free scalars 3 0 0 1)%Z ∧
  (combined free scalars 3 0 0 2 < combined free scalars 3 0 0 1)%Z.
Proof.
  assert (combined free scalars 3 0 0 1
          = (4 + tree_score scalars 0 0 balanced4)%Z) as ->.
  { unfold combined. simpl.
    destruct (scenario_level1 0 ltac:(lia)) as [-> _].
    destruct (scenario_level1 2 ltac:(lia)) as [-> _]. lia. }
  destruct Hfree as (Hlen & _).
  split.
  - destruct (unconstrained_cell 4 1 scalars [[]] ltac:(repeat constructor) free Hfree
                0 ltac:(lia) 2 1 ltac:(lia)) as (m & Hcell & _ & t & Ht & Hscore).
    specialize (Hunique (Node Leaf t)). simpl in Hunique.
    unfold combined, cell_val. simpl. rewrite Hcell.
    destruct (scenario_leaf 0 ltac:(lia)) as [H0 _]. unfold cell_val in H0. rewrite H0.
    simpl in *. rewrite Ht in Hunique. simpl in Hunique.
    specialize (Hunique ltac:(lia) ltac:(discriminate)). lia.
  - destruct (unconstrained_cell 4 1 scalars [[]] ltac:(repeat constructor) free Hfree
                0 ltac:(lia) 2 0 ltac:(lia)) as (m & Hcell & _ & t & Ht & Hscore).
    specialize (Hunique (Node t Leaf)). simpl in Hunique.
    unfold combined, cell_val. simpl. rewrite Hcell.
    destruct (scenario_leaf 3 ltac:(lia)) as [H3 _]. unfold cell_val in H3. rewrite H3.
    simpl in *. rewrite Ht in Hunique. simpl in Hunique.
    specialize (Hunique ltac:(lia)).
    assert (Node t Leaf ≠ balanced4) as Hne by (unfold balanced4; congruence).
    specialize (Hunique Hne). lia.
Qed.

Lemma scenario_cell_3_0 :
  first_argmax (combined bound scalars 3 0 0) 3 1 ∧
  cell_val bound 3 0 0 = combined bound scalars 3 0 0 1 ∧
  cell_val bound 3 0 0 = cell_val free 3 0 0.
Proof.
  destruct scenario_free_split1 as [H01 H21].
  assert (combined bound scalars 3 0 0 0 = combined free scalars 3 0 0 0) as Hb0.
  { unfold combined. simpl. rewrite scenario_cell_2_1.
    by destruct (scenario_leaf 0 ltac:(lia)) as [-> ->]. }
  assert (combined bound scalars 3 0 0 1 = combined free scalars 3 0 0 1) as Hb1.
  { unfold combined. simpl.
    destruct (scenario_level1 0 ltac:(lia)) as [-> ->].
    by destruct (scenario_level1 2 ltac:(lia)) as [-> ->]. }
  assert (combined bound scalars 3 0 0 2 ≤ combined free scalars 3 0 0 2)%Z as Hb2.
  { unfold combined. simpl. destruct scenario_cell_2_0 as [_ Hle].
    destruct (scenario_leaf 3 ltac:(lia)) as [-> ->]. lia. }
  assert (first_argmax (combined bound scalars 3 0 0) 3 1) as Hbest.
  { split; [lia|]. split.
    - intros j Hj. assert (j = 0 ∨ j = 1 ∨ j = 2) as [->|[-> | ->]] by lia; lia.
    - intros j Hj. assert (j = 0) as -> by lia. lia. }
  assert (first_argmax (combined free scalars 3 0 0) 3 1) as Hbest'.
  { split; [lia|]. split.
    - intros j Hj. assert (j = 0 ∨ j = 1 ∨ j = 2) as [->|[-> | ->]] by lia; lia.
    - intros j Hj. assert (j = 0) as -> by lia. lia. }
  split; [done|].
  destruct (scenario_bound_argmax 3 0) as (i & Hi & Hcell); [lia|lia|congruence|].
  destruct (scenario_free_argmax 3 0) as (i' & Hi' & Hcell'); [lia..|].
  rewrite (first_argmax_unique _ _ _ _ Hi Hbest) in Hcell.
  rewrite (first_argmax_unique _ _ _ _ Hi' Hbest') in Hcell'.
  split; [done|]. by rewrite Hcell, Hcell', Hb1.
Qed.

End scenario.

Lemma leaves_2 (t : btree) : leaves t = 2 → t = Node Leaf Leaf.
Proof.
  destruct t as [|l r]; simpl; [lia|]. intros Ht.
  pose proof (leaves_pos l). pose proof (leaves_pos r).
  by rewrite (leaves_1 l), (leaves_1 r) by lia.
Qed.

Lemma leaves_3 (t : btree) :
  leaves t = 3 → t = Node Leaf (Node Leaf Leaf) ∨ t = Node (Node Leaf Leaf) Leaf.
Proof.
  destruct t as [|l r]; simpl; [lia|]. intros Ht.
  pose proof (leaves_pos l). pose proof (leaves_pos r).
  destruct (decide (leaves l = 1)) as [Hl|Hl].
  - left. by rewrite (leaves_1 l), (leaves_2 r) by lia.
  - right. by rewrite (leaves_2 l), (leaves_1 r) by lia.
Qed.

Lemma scenario_unique_max : unique_max_bracketing scenario_potentials 0 0 balanced4.
Proof.
  intros t Ht Hne. destruct t as [|l r]; simpl in Ht; [lia|].
  pose proof (leaves_pos l). pose proof (leaves_pos r).
  destruct (decide (leaves l = 1)) as [Hl|Hl1].
  { rewrite (leaves_1 l Hl) in *.
    destruct (leaves_3 r ltac:(simpl in Ht; lia)) as [-> | ->]; by vm_compute. }
  destruct (decide (leaves l = 2)) as [Hl|Hl2].
  { rewrite (leaves_2 l Hl), (leaves_2 r) in Hne by lia. done. }
  rewrite (leaves_1 r) by lia.
  destruct (leaves_3 l ltac:(lia)) as [-> | ->]; by vm_compute.
Qed.




(** ** [makeLeftTree] and [makeRightTree] *)

Lemma elem_of_py_range (a b x : Z) : x ∈ py_range a b ↔ (a ≤ x < b)%Z.
Proof.
  unfold py_range. change (map ?f ?l) with (f <$> l). rewrite list_elem_of_fmap.
  split.
  - intros (i & -> & Hi%elem_of_seq). lia.
  - intros Hx. exists (Z.to_nat (x - a)). split; [lia|]. apply elem_of_seq. lia.
Qed.

Lemma fold_left_snoc {A B : Type} (f : B → A) (l : list B) (acc : list A) :
  fold_left (λ acc x, acc ++ [f x]) l acc = acc ++ map f l.
Proof.
  revert acc. induction l as [|x l IH]; intros acc; simpl.
  - by rewrite app_nil_r.
  - by rewrite IH, <- app_assoc.
Qed.

Lemma left_chain_app (tmp : list span) (t : span) :
  left_chain tmp t = tmp ++ map (λ i, (t.1, i)) (py_range 2 (t.2 + 1)).
Proof. unfold left_chain. apply (fold_left_snoc (λ i, (t.1, i))). Qed.

Lemma right_chain_app (tmp : list span) (t : span) :
  right_chain tmp t
  = tmp ++ map (λ i, ((t.1 + t.2 - 1 - i)%Z, (i + 1)%Z)) (py_range 1 t.2).
Proof.
  unfold right_chain.
  apply (fold_left_snoc (λ i, ((t.1 + t.2 - 1 - i)%Z, (i + 1)%Z))).
Qed.

Lemma elem_of_left_chains (s : list span) (tmp : list span) (sp : span) :
  sp ∈ fold_left left_chain s tmp ↔
  sp ∈ tmp ∨ ∃ t, t ∈ s ∧ sp.1 = t.1 ∧ (2 ≤ sp.2 ≤ t.2)%Z.
Proof.
  revert tmp. induction s as [|t s IH]; intros tmp; simpl.
  - split; [by left|]. intros [?|(t & Ht & _)]; [done|]. by apply elem_of_nil in Ht.
  - rewrite IH, left_chain_app, elem_of_app.
    change (map ?f ?l) with (f <$> l). rewrite list_elem_of_fmap.
    split.
    + intros [[?|(i & -> & Hi%elem_of_py_range)]|(t' & Ht' & ?)].
      * by left.
      * right. exists t. split; [left|]. simpl. lia.
      * right. exists t'. split; [by right|done].
    + intros [?|(t' & [->|Ht']%elem_of_cons & Hstart & Hlen)].
      * by left; left.
      * left; right. exists sp.2. split; [by destruct sp; simpl in *; subst|].
        apply elem_of_py_range. lia.
      * right. by exists t'.
Qed.

Lemma elem_of_right_chains (s : list span) (tmp : list span) (sp : span) :
  sp ∈ fold_left right_chain s tmp ↔
  sp ∈ tmp ∨ ∃ t, t ∈ s ∧ (sp.1 + sp.2 = t.1 + t.2)%Z ∧ (2 ≤ sp.2 ≤ t.2)%Z.
Proof.
  revert tmp. induction s as [|t s IH]; intros tmp; simpl.
  - split; [by left|]. intros [?|(t & Ht & _)]; [done|]. by apply elem_of_nil in Ht.
  - rewrite IH, right_chain_app, elem_of_app.
    change (map ?f ?l) with (f <$> l). rewrite list_elem_of_fmap.
    split.
    + intros [[?|(i & -> & Hi%elem_of_py_range)]|(t' & Ht' & ?)].
      * by left.
      * right. exists t. split; [left|]. simpl. lia.
      * right. exists t'. split; [by right|done].
    + intros [?|(t' & [->|Ht']%elem_of_cons & Hend & Hlen)].
      * by left; left.
      * left; right. exists (sp.2 - 1)%Z. split.
        -- destruct sp as [p n]; simpl in *. f_equal; lia.
        -- apply elem_of_py_range. lia.
      * right. by exists t'.
Qed.

(** X1.  [makeLeftTree] keeps one list per batch element; the list of an
    element holds exactly the spans that start where one of its given spans
    [(start, l)] starts and have a length from 2 to [l].  A given span of
    length 1 or less contributes nothing. *)
Theorem makeLeftTree_spans (spans : list (list span)) :
  length (makeLeftTree spans) = length spans ∧
  ∀ b s, spans !! b = Some s →
    ∃ chain, makeLeftTree spans !! b = Some chain ∧
      ∀ sp, sp ∈ chain ↔ ∃ t, t ∈ s ∧ sp.1 = t.1 ∧ (2 ≤ sp.2 ≤ t.2)%Z.
Proof.
  unfold makeLeftTree. split; [by rewrite length_map|].
  intros b s Hs. eexists. change (map ?f ?l) with (f <$> l).
  rewrite list_lookup_fmap, Hs. split; [done|].
  intros sp. rewrite elem_of_left_chains. split; [|by right].
  intros [Hnil|?]; [|done]. by apply elem_of_nil in Hnil.
Qed.

(** X2.  [makeRightTree] keeps one list per batch element; the list of an
    element holds exactly the spans that end where one of its given spans
    [(start, l)] ends and have a length from 2 to [l]. *)
Theorem makeRightTree_spans (spans : list (list span)) :
  length (makeRightTree spans) = length spans ∧
  ∀ b s, spans !! b = Some s →
    ∃ chain, makeRightTree spans !! b = Some chain ∧
      ∀ sp, sp ∈ chain ↔
        ∃ t, t ∈ s ∧ (sp.1 + sp.2 = t.1 + t.2)%Z ∧ (2 ≤ sp.2 ≤ t.2)%Z.
Proof.
  unfold makeRightTree. split; [by rewrite length_map|].
  intros b s Hs. eexists. change (map ?f ?l) with (f <$> l).
  rewrite list_lookup_fmap, Hs. split; [done|].
  intros sp. rewrite elem_of_right_chains. split; [|by right].
  intros [Hnil|?]; [|done]. by apply elem_of_nil in Hnil.
Qed.

(** ** [tree_to_spans] *)

Lemma spans_helper_spec (tr : item) :
  ∀ pos acc, spans_helper tr pos acc = (item_size tr, acc ++ node_spans pos tr).
Proof.
  induction tr as [w|ts IH] using item_nested_ind; intros pos acc.
  - simpl. by rewrite app_nil_r.
  - cbn [spans_helper node_spans].
    assert (∀ size acc,
      (fix loop (ts : list item) (size : nat) (spans : list span) : nat * list span :=
         match ts with
         | [] => (size, spans)
         | x :: ts' =>
             let '(xsize, spans) := spans_helper x (pos + size) spans in
             loop ts' (size + xsize) spans
         end) ts size acc
      = (size + list_sum (map item_size ts),
         acc ++ (fix loop (ts : list item) (size : nat) : list span :=
                   match ts with
                   | [] => []
                   | x :: ts' => node_spans (pos + size) x ++ loop ts' (size + item_size x)
                   end) ts size)) as Hloop.
    { clear acc. induction IH as [|x ts Hx _ IHts]; intros size acc.
      - simpl. by rewrite Nat.add_0_r, app_nil_r.
      - cbn [map]. rewrite Hx, IHts. f_equal; [simpl; lia|]. by rewrite <- app_assoc. }
    rewrite Hloop. cbn [item_size]. simpl. by rewrite <- app_assoc.
Qed.

Lemma tree_to_spans_node_spans (tr : item) : tree_to_spans tr = node_spans 0 tr.
Proof. unfold tree_to_spans. by rewrite spans_helper_spec. Qed.

Lemma node_spans_props (tr : item) :
  ∀ pos,
    length (node_spans pos tr) = item_nodes tr ∧
    ∀ sp, sp ∈ node_spans pos tr →
      (Z.of_nat pos ≤ sp.1)%Z ∧ (sp.1 + sp.2 ≤ Z.of_nat (pos + item_size tr))%Z ∧
      (0 ≤ sp.2)%Z.
Proof.
  induction tr as [w|ts IH] using item_nested_ind; intros pos.
  - simpl. split; [done|]. intros sp Hsp. by apply elem_of_nil in Hsp.
  - cbn [node_spans item_nodes item_size].
    assert (∀ size,
      let inner := (fix loop (ts : list item) (size : nat) : list span :=
                      match ts with
                      | [] => []
                      | x :: ts' =>
                          node_spans (pos + size) x ++ loop ts' (size + item_size x)
                      end) ts size in
      length inner = list_sum (map item_nodes ts) ∧
      ∀ sp, sp ∈ inner →
        (Z.of_nat (pos + size) ≤ sp.1)%Z ∧
        (sp.1 + sp.2 ≤ Z.of_nat (pos + size + list_sum (map item_size ts)))%Z ∧
        (0 ≤ sp.2)%Z) as Hloop.
    { induction IH as [|x ts Hx _ IHts]; intros size; cbn zeta.
      - split; [done|]. intros sp Hsp. by apply elem_of_nil in Hsp.
      - destruct (Hx (pos + size)) as [Hlx Hinx].
        destruct (IHts (size + item_size x)) as [Hlts Hints]. cbn zeta in Hlts, Hints.
        simpl list_sum. split; [by rewrite length_app, Hlx, Hlts|].
        intros sp [Hsp|Hsp]%elem_of_app.
        + specialize (Hinx sp Hsp). lia.
        + specialize (Hints sp Hsp). lia. }
    destruct (Hloop 0) as [Hl Hin]. cbn zeta in Hl, Hin. split.
    + rewrite length_app, Hl. simpl. lia.
    + intros sp [Hsp|Hsp%list_elem_of_singleton]%elem_of_app.
      * specialize (Hin sp Hsp). lia.
      * subst sp. simpl. lia.
Qed.

(** X3.  [tree_to_spans] returns one span per list node of the tree, every
    span lying within the tokens of the tree; when the tree is itself a list
    or tuple, the last span is the one of the whole tree, [(0, size)].  A
    bare leaf gives no span. *)
Theorem tree_to_spans_nodes (tr : item) :
  length (tree_to_spans tr) = item_nodes tr ∧
  (∀ sp, sp ∈ tree_to_spans tr →
     (0 ≤ sp.1)%Z ∧ (0 ≤ sp.2)%Z ∧ (sp.1 + sp.2 ≤ Z.of_nat (item_size tr))%Z) ∧
  (∀ ts, tr = Tuple ts →
     last (tree_to_spans tr) = Some (0%Z, Z.of_nat (item_size tr))) ∧
  (∀ w, tr = Str w → tree_to_spans tr = []).
Proof.
  rewrite tree_to_spans_node_spans.
  destruct (node_spans_props tr 0) as [Hl Hin].
  split; [done|]. split; [|split].
  - intros sp Hsp. specialize (Hin sp Hsp). lia.
  - intros ts ->. cbn [node_spans]. by rewrite last_snoc.
  - by intros w ->.
Qed.

(** ** [replace_leaves] *)

Lemma item_words_length (tr : item) : length (item_words tr) = item_size tr.
Proof.
  induction tr as [w|ts IH] using item_nested_ind; [done|].
  cbn [item_words item_size]. induction IH as [|x ts Hx _ IHts]; [done|].
  cbn [map concat]. rewrite length_app, Hx, IHts. done.
Qed.

Lemma node_spans_skeleton (tr : item) :
  item_size (skeleton tr) = item_size tr ∧
  ∀ pos, node_spans pos (skeleton tr) = node_spans pos tr.
Proof.
  induction tr as [w|ts IH] using item_nested_ind; [done|].
  assert (list_sum (map item_size (map skeleton ts)) = list_sum (map item_size ts))
    as Hsize.
  { induction IH as [|x ts [Hx _] _ IHts]; [done|]. cbn [map]. simpl. by rewrite Hx, IHts. }
  split; [done|]. intros pos. cbn [skeleton node_spans item_size]. rewrite Hsize.
  f_equal. generalize 0 as size.
  induction IH as [|x ts [Hx Hsp] _ IHts]; intros size; [done|].
  cbn [map]. rewrite Hsp, Hx, IHts; [done|].
  cbn [map] in Hsize. simpl in Hsize. lia.
Qed.

(** With enough leaves [func] succeeds, reads them in order and keeps the
    nesting. *)
Lemma replace_func_Ok (leaves : list string) (tr : item) :
  ∀ pos, pos + item_size tr ≤ length leaves →
    ∃ tr', replace_func leaves tr pos = Ok (item_size tr, tr') ∧
           item_words tr' = take (item_size tr) (drop pos leaves) ∧
           skeleton tr' = skeleton tr.
Proof.
  induction tr as [w|ts IH] using item_nested_ind; intros pos Hpos.
  - simpl in Hpos. destruct (lookup_lt_is_Some_2 leaves pos) as [leaf Hleaf]; [lia|].
    exists (Str leaf). simpl. rewrite (py_get_Some _ _ _ Hleaf). simpl.
    split; [done|]. split; [|done].
    rewrite <- (take_drop_middle leaves pos leaf Hleaf) at 1.
    rewrite drop_app_length'; [done|]. rewrite length_take. apply lookup_lt_Some in Hleaf. lia.
  - cbn [replace_func item_size] in *.
    assert (∀ sofar newtree,
      pos + sofar + list_sum (map item_size ts) ≤ length leaves →
      ∃ ts',
        (fix loop (ts : list item) (sofar : nat) (newtree : list item)
           : result (nat * list item) :=
           match ts with
           | [] => Ok (sofar, newtree)
           | node :: ts' =>
               sub ← replace_func leaves node (pos + sofar);
               loop ts' (sofar + sub.1) (newtree ++ [sub.2])
           end) ts sofar newtree
        = Ok (sofar + list_sum (map item_size ts), newtree ++ ts') ∧
        concat (map item_words ts')
        = take (list_sum (map item_size ts)) (drop (pos + sofar) leaves) ∧
        map skeleton ts' = map skeleton ts) as Hloop.
    { clear Hpos. induction IH as [|x ts Hx _ IHts]; intros sofar newtree Hlen.
      - exists []. simpl. by rewrite Nat.add_0_r, app_nil_r.
      - cbn [map] in Hlen. simpl in Hlen.
        destruct (Hx (pos + sofar) ltac:(lia)) as (x' & -> & Hwords & Hskel).
        cbn [mbind result_bind fst snd].
        destruct (IHts (sofar + item_size x) (newtree ++ [x']) ltac:(lia))
          as (ts' & -> & Hwords' & Hskel').
        exists (x' :: ts'). split; [|split].
        + f_equal. f_equal; [simpl; lia|]. by rewrite <- app_assoc.
        + cbn [map concat]. rewrite Hwords, Hwords'. simpl list_sum.
          rewrite <- take_take_drop, drop_drop. do 3 f_equal. lia.
        + cbn [map]. by rewrite Hskel, Hskel'. }
    destruct (Hloop 0 [] ltac:(lia)) as (ts' & -> & Hwords & Hskel).
    exists (Tuple ts'). cbn [mbind result_bind fst snd]. split; [done|].
    rewrite Nat.add_0_r in Hwords. cbn [item_words skeleton]. by rewrite Hwords, Hskel.
Qed.

(** With too few leaves the first missing one raises. *)
Lemma replace_func_IndexError (leaves : list string) (tr : item) :
  ∀ pos, pos ≤ length leaves → length leaves < pos + item_size tr →
    replace_func leaves tr pos = Raise IndexError.
Proof.
  induction tr as [w|ts IH] using item_nested_ind; intros pos Hle Hpos.
  - simpl in *. unfold py_get. by rewrite lookup_ge_None_2 by lia.
  - cbn [replace_func item_size] in *.
    assert (∀ sofar newtree,
      pos + sofar ≤ length leaves →
      length leaves < pos + sofar + list_sum (map item_size ts) →
      (fix loop (ts : list item) (sofar : nat) (newtree : list item)
         : result (nat * list item) :=
         match ts with
         | [] => Ok (sofar, newtree)
         | node :: ts' =>
             sub ← replace_func leaves node (pos + sofar);
             loop ts' (sofar + sub.1) (newtree ++ [sub.2])
         end) ts sofar newtree
      = Raise IndexError) as Hloop.
    { clear Hpos Hle. induction IH as [|x ts Hx _ IHts]; intros sofar newtree Hle Hlt.
      - simpl in Hlt. lia.
      - cbn [map] in Hlt. simpl in Hlt.
        destruct (decide (pos + sofar + item_size x ≤ length leaves)) as [Hfit|Hfit].
        + destruct (replace_func_Ok leaves x (pos + sofar) Hfit) as (x' & -> & _).
          cbn [mbind result_bind fst snd]. apply IHts; lia.
        + by rewrite Hx by lia. }
    rewrite Hloop by lia. done.
Qed.

Lemma skeleton_words_inj (tr : item) :
  ∀ tr', skeleton tr' = skeleton tr → item_words tr' = item_words tr → tr' = tr.
Proof.
  induction tr as [w|ts IH] using item_nested_ind; intros [w'|ts'] Hskel Hwords;
    try discriminate.
  - simpl in Hwords. by injection Hwords as ->.
  - f_equal. cbn [skeleton item_words] in *. injection Hskel as Hskel.
    revert ts' Hskel Hwords.
    induction IH as [|x ts Hx _ IHts]; intros [|x' ts'] Hskel Hwords;
      try discriminate; [done|].
    cbn [map concat] in *. injection Hskel as Hx' Hts'.
    apply app_inj_1 in Hwords as [Hw Hws].
    + f_equal; [by apply Hx|by apply IHts].
    + rewrite !item_words_length.
      rewrite <- (proj1 (node_spans_skeleton x')), <- (proj1 (node_spans_skeleton x)).
      by rewrite Hx'.
Qed.

(** X4.  When there are at least as many leaves as the tree has,
    [replace_leaves] returns a tree with the nesting of the given one (so
    [tree_to_spans] gives the same spans for both, as [run_train] relies on)
    whose leaves are the first leaves given, in order. *)
Theorem replace_leaves_keeps_nesting (tr : item) (leaves : list string) :
  item_size tr ≤ length leaves →
  ∃ tr', replace_leaves tr leaves = Ok tr' ∧
         item_words tr' = take (item_size tr) leaves ∧
         tree_to_spans tr' = tree_to_spans tr.
Proof.
  intros Hlen. unfold replace_leaves.
  destruct (replace_func_Ok leaves tr 0 ltac:(lia)) as (tr' & -> & Hwords & Hskel).
  exists tr'. split; [done|]. split; [done|].
  rewrite !tree_to_spans_node_spans.
  rewrite <- (proj2 (node_spans_skeleton tr')), <- (proj2 (node_spans_skeleton tr)).
  by rewrite Hskel.
Qed.

Lemma replace_leaves_keeps_nesting_witness :
  ∃ tr', replace_leaves (Tuple [Tuple [Str "0"; Str "1"]; Str "2"]) ["a"; "b"; "c"; "d"]
         = Ok tr' ∧
         item_words tr' = ["a"; "b"; "c"] ∧
         tree_to_spans tr' = [(0, 2)%Z; (0, 3)%Z].
Proof.
  apply (replace_leaves_keeps_nesting (Tuple [Tuple [Str "0"; Str "1"]; Str "2"])
           ["a"; "b"; "c"; "d"]).
  simpl. lia.
Defined.

(** X5.  When the tree has more leaves than are given, [replace_leaves]
    raises [IndexError]. *)
Theorem replace_leaves_too_few (tr : item) (leaves : list string) :
  length leaves < item_size tr →
  replace_leaves tr leaves = Raise IndexError.
Proof.
  intros Hlen. unfold replace_leaves.
  by rewrite replace_func_IndexError by lia.
Qed.

Lemma replace_leaves_too_few_witness :
  replace_leaves (Tuple [Str "0"; Str "1"]) ["a"] = Raise IndexError.
Proof.
  apply (replace_leaves_too_few (Tuple [Str "0"; Str "1"]) ["a"]). simpl. lia.
Defined.

(** X6.  Replacing the leaves of a tree by its own leaves gives the tree
    back; leaves given beyond those of the tree are ignored.  (Up to the
    kind of sequence: the source rebuilds every list or tuple as a list,
    and [item] does not tell the two apart.) *)
Theorem replace_leaves_own_leaves (tr : item) (extra : list string) :
  replace_leaves tr (item_words tr ++ extra) = Ok tr.
Proof.
  unfold replace_leaves.
  destruct (replace_func_Ok (item_words tr ++ extra) tr 0) as (tr' & -> & Hwords & Hskel).
  { rewrite length_app, item_words_length. lia. }
  cbn [mbind result_bind snd]. f_equal. apply skeleton_words_inj; [done|].
  rewrite Hwords, drop_0, <- item_words_length. by rewrite take_app_length.
Qed.

(** ** [precision_and_recall] *)

Lemma count_members `{Countable K} (X Y : gset K) :
  set_fold (λ x n, if bool_decide (x ∈ Y) then n + 1 else n) 0 X = size (X ∩ Y).
Proof.
  apply (set_fold_ind_L (λ n X, n = size (X ∩ Y))).
  - by rewrite intersection_empty_l_L, size_empty.
  - intros x X' n Hx ->. destruct (decide (x ∈ Y)) as [Hin|Hnin].
    + rewrite bool_decide_eq_true_2 by done.
      assert (({[x]} ∪ X') ∩ Y = {[x]} ∪ (X' ∩ Y)) as ->.
      { apply set_eq. intros y.
        rewrite elem_of_intersection, !elem_of_union, elem_of_intersection,
          elem_of_singleton.
        split.
        - intros [[Heq|Hy1] Hy2]; [by left|by right].
        - intros [Heq|[Hy1 Hy2]]; [subst; split; [by left|done]|split; [by right|done]]. }
      rewrite (size_union (C := gset K) {[x]} (X' ∩ Y)).
      * rewrite size_singleton. lia.
      * intros y Hy%elem_of_singleton [Hy' _]%elem_of_intersection. by subst.
    + rewrite bool_decide_eq_false_2 by done. f_equal.
      apply set_eq. intros y.
      rewrite !elem_of_intersection, elem_of_union, elem_of_singleton.
      split.
      * intros [Hy1 Hy2]. split; [by right|done].
      * intros [[Heq|Hy1] Hy2]; [by subst|done].
Qed.

(** X7.  The first two numbers returned by [precision_and_recall] are both
    the number of distinct spans common to the two lists, hence equal, and
    they do not exceed the third, the number of distinct gold spans. *)
Theorem precision_and_recall_common (gold not_gold : list span) :
  precision_and_recall gold not_gold
  = (size (list_to_set gold ∩ list_to_set not_gold : gset span),
     size (list_to_set gold ∩ list_to_set not_gold : gset span),
     size (list_to_set gold : gset span)) ∧
  size (list_to_set gold ∩ list_to_set not_gold : gset span)
  ≤ size (list_to_set gold : gset span).
Proof.
  unfold precision_and_recall. rewrite !count_members. split.
  - do 2 f_equal. f_equal. apply intersection_comm_L.
  - apply subseteq_size, intersection_subseteq_l.
Qed.

(** X8.  When the two lists hold the same spans, whatever their order and
    repetitions, [precision_and_recall] returns three times the number of
    distinct spans. *)
Theorem precision_and_recall_same (gold not_gold : list span) :
  (∀ sp, sp ∈ gold ↔ sp ∈ not_gold) →
  precision_and_recall gold not_gold
  = (size (list_to_set gold : gset span),
     size (list_to_set gold : gset span),
     size (list_to_set gold : gset span)).
Proof.
  intros Hsame. unfold precision_and_recall. rewrite !count_members.
  assert ((list_to_set not_gold : gset span) = list_to_set gold) as ->.
  { apply set_eq. intros sp. rewrite !elem_of_list_to_set. by rewrite Hsame. }
  by rewrite intersection_idemp_L.
Qed.

Lemma precision_and_recall_same_witness :
  precision_and_recall [(0, 2)%Z; (0, 3)%Z] [(0, 3)%Z; (0, 2)%Z; (0, 3)%Z]
  = (size (list_to_set [(0, 2)%Z; (0, 3)%Z] : gset span),
     size (list_to_set [(0, 2)%Z; (0, 3)%Z] : gset span),
     size (list_to_set [(0, 2)%Z; (0, 3)%Z] : gset span)).
Proof.
  apply (precision_and_recall_same [(0, 2)%Z; (0, 3)%Z] [(0, 3)%Z; (0, 2)%Z; (0, 3)%Z]).
  intros sp. rewrite !list_elem_of_In. simpl. tauto.
Defined.

(** ** More on [findParent] *)

(** The second loop keeps the first of the shortest spans below [mx]. *)
Lemma pick_min_first (l : list span) (mx : Z) (r : option span) :
  (fold_left pick_min l (mx, r) = (mx, r) ∧ ∀ c, c ∈ l → (mx ≤ c.2)%Z)
  ∨ ∃ c l1 l2,
      l = l1 ++ c :: l2 ∧ fold_left pick_min l (mx, r) = (c.2, Some c) ∧
      (c.2 < mx)%Z ∧
      (∀ x, x ∈ l1 → (c.2 < x.2)%Z) ∧ (∀ x, x ∈ l2 → (c.2 ≤ x.2)%Z).
Proof.
  revert mx r. induction l as [|a l IH]; intros mx r.
  - left. split; [done|]. intros c Hc. by apply elem_of_nil in Hc.
  - cbn [fold_left].
    assert (pick_min (mx, r) a = if (a.2 <? mx)%Z then (a.2, Some a) else (mx, r))
      as -> by done.
    destruct (Z.ltb_spec a.2 mx) as [Hlt|Hge].
    + right. destruct (IH a.2 (Some a))
        as [[-> Hall]|(c & l1 & l2 & -> & -> & Hc & Hl1 & Hl2)].
      * exists a, [], l. split; [done|]. split; [done|]. split; [done|].
        split; [|done]. intros x Hx. by apply elem_of_nil in Hx.
      * exists c, (a :: l1), l2. split; [done|]. split; [done|]. split; [lia|].
        split; [|done]. intros x [->|Hx]%elem_of_cons; [done|by apply Hl1].
    + destruct (IH mx r) as [[-> Hall]|(c & l1 & l2 & -> & -> & Hc & Hl1 & Hl2)].
      * left. split; [done|]. intros c [->|Hc]%elem_of_cons; [done|by apply Hall].
      * right. exists c, (a :: l1), l2. split; [done|]. split; [done|].
        split; [done|]. split; [|done].
        intros x [->|Hx]%elem_of_cons; [lia|by apply Hl1].
Qed.

Lemma filter_app_cons_inv {A : Type} (P : A → Prop) `{∀ x, Decision (P x)}
    (l : list A) (c : A) (l1 l2 : list A) :
  filter P l = l1 ++ c :: l2 →
  ∃ t1 t2, l = t1 ++ c :: t2 ∧ filter P t1 = l1 ∧ filter P t2 = l2 ∧ P c.
Proof.
  revert l1. induction l as [|a l IH]; intros l1 Hf.
  - by destruct l1.
  - rewrite filter_cons in Hf. destruct (decide (P a)) as [Ha|Ha].
    + destruct l1 as [|b l1]; simpl in Hf.
      * injection Hf as -> Hf. exists [], l. by rewrite filter_nil.
      * injection Hf as -> Hf. destruct (IH l1 Hf) as (t1 & t2 & -> & <- & <- & Hc).
        exists (b :: t1), t2. by rewrite filter_cons_True.
    + destruct (IH l1 Hf) as (t1 & t2 & -> & <- & <- & Hc).
      exists (a :: t1), t2. by rewrite filter_cons_False.
Qed.

(** X9.  For a target that is not in the tree and is covered by some span
    shorter than 1000, [findParent] returns as root the first, in iteration
    order, of the shortest covering spans, and as children the spans of the
    tree that lie inside the root, in iteration order. *)
Theorem findParent_first_shortest (tree : list span) (sp : span) :
  sp ∉ tree →
  (∃ c, c ∈ tree ∧ covers c sp = true ∧ (c.2 < 1000)%Z) →
  ∃ root t1 t2,
    tree = t1 ++ root :: t2 ∧
    findParent tree sp = Ok (Some root, filter (λ c, inside root c = true) tree) ∧
    covers root sp = true ∧
    (∀ c, c ∈ t1 → covers c sp = true → (root.2 < c.2)%Z) ∧
    (∀ c, c ∈ t2 → covers c sp = true → (root.2 ≤ c.2)%Z).
Proof.
  intros Hnin (c0 & Hc0 & Hcov0 & Hlt0). unfold findParent.
  rewrite bool_decide_eq_false_2 by done.
  destruct (pick_min_first (filter (λ c, covers c sp = true) tree) 1000 None)
    as [[_ Hall]|(root & l1 & l2 & Hsplit & -> & _ & Hl1 & Hl2)].
  - assert (c0 ∈ filter (λ c, covers c sp = true) tree) as Hc0'
      by (by apply list_elem_of_filter).
    specialize (Hall _ Hc0'). lia.
  - apply filter_app_cons_inv in Hsplit as (t1 & t2 & -> & <- & <- & Hroot).
    exists root, t1, t2. split; [done|]. rewrite collect_child_Some. simpl.
    split; [done|]. split; [done|]. split.
    + intros c Hc Hcov. apply Hl1. by apply list_elem_of_filter.
    + intros c Hc Hcov. apply Hl2. by apply list_elem_of_filter.
Qed.

Lemma findParent_first_shortest_witness :
  ∃ root t1 t2,
    [(0, 4)%Z; (2, 2)%Z; (1, 2)%Z; (1, 3)%Z] = t1 ++ root :: t2 ∧
    findParent [(0, 4)%Z; (2, 2)%Z; (1, 2)%Z; (1, 3)%Z] (2, 1)%Z
    = Ok (Some root,
          filter (λ c, inside root c = true) [(0, 4)%Z; (2, 2)%Z; (1, 2)%Z; (1, 3)%Z]) ∧
    covers root (2, 1)%Z = true.
Proof.
  destruct (findParent_first_shortest [(0, 4)%Z; (2, 2)%Z; (1, 2)%Z; (1, 3)%Z] (2, 1)%Z)
    as (root & t1 & t2 & Hsplit & Hrun & Hcov & _).
  - intros Hin%list_elem_of_In. simpl in Hin. intuition discriminate.
  - exists (0, 4)%Z. split; [left|]. split; [reflexivity|reflexivity].
  - exists root, t1, t2. split; [exact Hsplit|]. split; [exact Hrun|exact Hcov].
Defined.

(** X10.  Whatever [findParent] returns, a root other than [None] is a span
    of the tree that covers the target and is itself among the children,
    and every child is a span of the tree lying inside the root; a [None]
    root is returned for the empty tree only, with no children. *)
Theorem findParent_returns (tree : list span) (sp : span)
    (root : option span) (children : list span) :
  findParent tree sp = Ok (root, children) →
  match root with
  | Some r =>
      r ∈ tree ∧ covers r sp = true ∧ r ∈ children ∧
      ∀ c, c ∈ children → c ∈ tree ∧ inside r c = true
  | None => tree = [] ∧ children = []
  end.
Proof.
  unfold findParent. destruct (decide (sp ∈ tree)) as [Hin|Hnin].
  - rewrite bool_decide_eq_true_2 by done. intros [= <- <-].
    assert (covers sp sp = true ∧ inside sp sp = true) as [Hc Hi].
    { unfold covers, inside. split; apply andb_true_iff; split; apply Z.leb_le; lia. }
    split; [done|]. split; [done|]. split; [by apply list_elem_of_singleton|].
    by intros c ->%list_elem_of_singleton.
  - rewrite bool_decide_eq_false_2 by done.
    destruct (pick_min_fold (filter (λ c, covers c sp = true) tree) 1000 None)
      as (mx' & r' & -> & _ & [[-> ->]|[_ (r & Hr & -> & _)]]).
    + rewrite collect_child_None. destruct tree; [|done]. by intros [= <- <-].
    + rewrite collect_child_Some. simpl. intros [= <- <-].
      apply list_elem_of_filter in Hr as [Hcov Hr].
      assert (inside r r = true) as Hi.
      { unfold inside. apply andb_true_iff; split; apply Z.leb_le; lia. }
      split; [done|]. split; [done|]. split; [by apply list_elem_of_filter|].
      intros c [Hc Hmem]%list_elem_of_filter. done.
Qed.

Lemma findParent_returns_witness :
  (0, 4)%Z ∈ [(0, 4)%Z; (2, 2)%Z] ∧ covers (0, 4)%Z (1, 1)%Z = true ∧
  (0, 4)%Z ∈ [(0, 4)%Z; (2, 2)%Z] ∧
  ∀ c, c ∈ [(0, 4)%Z; (2, 2)%Z] → c ∈ [(0, 4)%Z; (2, 2)%Z] ∧ inside (0, 4)%Z c = true.
Proof.
  exact (findParent_returns [(0, 4)%Z; (2, 2)%Z] (1, 1)%Z
           (Some (0, 4)%Z) [(0, 4)%Z; (2, 2)%Z] eq_refl).
Defined.

(** ** [findClosestParent] *)

(** A loop over a list whose body, when it does not raise, keeps an
    invariant of the elements seen so far. *)
Lemma foldM_list_inv {St A : Type} (f : St → A → result St)
    (P : list A → St → Prop) (l : list A) (s0 s' : St) :
  P [] s0 →
  (∀ pre x s s1, P pre s → f s x = Ok s1 → P (pre ++ [x]) s1) →
  foldM f s0 l = Ok s' → P l s'.
Proof.
  intros H0 Hstep.
  assert (∀ pre s, P pre s → foldM f s l = Ok s' → P (pre ++ l) s') as Hgen.
  { induction l as [|x l IH]; intros pre s HP Hrun; simpl in Hrun.
    - injection Hrun as <-. by rewrite app_nil_r.
    - destruct (f s x) as [s1|e] eqn:Hf; [|done]. simpl in Hrun.
      replace (pre ++ x :: l) with ((pre ++ [x]) ++ l) by (by rewrite <- app_assoc).
      apply (IH _ s1); [by eapply Hstep|done]. }
  apply (Hgen [] s0 H0).
Qed.

(** A loop over [range(a, a + k)] whose body, when it does not raise, keeps
    an invariant. *)
Lemma foldM_seq_inv_Ok {St : Type} (f : St → nat → result St)
    (P : nat → St → Prop) (k a : nat) (s0 s' : St) :
  P a s0 →
  (∀ i s s1, a ≤ i < a + k → P i s → f s i = Ok s1 → P (S i) s1) →
  foldM f s0 (seq a k) = Ok s' → P (a + k) s'.
Proof.
  revert a s0. induction k as [|k IH]; intros a s0 HP Hstep Hrun; simpl in Hrun.
  - injection Hrun as <-. by rewrite Nat.add_0_r.
  - destruct (f s0 a) as [s1|e] eqn:Hf; [|done]. simpl in Hrun.
    replace (a + S k) with (S a + k) by lia.
    apply (IH (S a) s1); [apply (Hstep a s0); [lia|done|done]| |done].
    intros i s s2 Hi. apply Hstep. lia.
Qed.

Section closest.

Context (set_iter : list span → list span).
Context (Hiter : ∀ l x, x ∈ set_iter l ↔ x ∈ l).
Context (max_spans : list (list span)).

Lemma closest_parents_members (i : nat) (tree s : list span)
    (tmp : list span) (tmp_root : list (option span)) :
  max_spans !! i = Some tree → (∀ t, t ∈ s → t ∈ tree) →
  foldM (closest_parents set_iter max_spans i) (tmp, tmp_root) s
  = Ok (tmp ++ s, tmp_root ++ map Some s).
Proof.
  intros Htree. revert tmp tmp_root.
  induction s as [|t s IH]; intros tmp tmp_root Hmem; simpl.
  - by rewrite !app_nil_r.
  - rewrite (py_get_Some _ _ _ Htree). cbn [mbind result_bind].
    rewrite findParent_member by (apply Hiter, Hmem; left).
    cbn [mbind result_bind fst snd].
    rewrite IH by (intros t' Ht'; apply Hmem; by right).
    by rewrite <- !app_assoc.
Qed.

Lemma closest_parents_returns (i : nat) (s : list span)
    (found : list span * list (option span)) :
  foldM (closest_parents set_iter max_spans i) ([], []) s = Ok found →
  length found.2 = length s ∧
  (∀ k t r, s !! k = Some t → found.2 !! k = Some (Some r) →
     covers r t = true ∧ ∃ tree, max_spans !! i = Some tree ∧ r ∈ tree) ∧
  (∀ c, c ∈ found.1 → ∃ tree, max_spans !! i = Some tree ∧ c ∈ tree).
Proof.
  apply (foldM_list_inv (closest_parents set_iter max_spans i)
           (λ pre st,
              length st.2 = length pre ∧
              (∀ k t r, pre !! k = Some t → st.2 !! k = Some (Some r) →
                 covers r t = true ∧ ∃ tree, max_spans !! i = Some tree ∧ r ∈ tree) ∧
              (∀ c, c ∈ st.1 → ∃ tree, max_spans !! i = Some tree ∧ c ∈ tree))).
  - split; [done|]. split; [intros k t r Hk; by rewrite lookup_nil in Hk|].
    intros c Hc. by apply elem_of_nil in Hc.
  - intros pre t [tmp tmp_root] st1 (Hlen & Hroots & Hmem) Hstep.
    unfold closest_parents in Hstep.
    destruct (max_spans !! i) as [tree|] eqn:Htree;
      [|unfold py_get in Hstep; by rewrite Htree in Hstep].
    rewrite (py_get_Some _ _ _ Htree) in Hstep. cbn [mbind result_bind] in Hstep.
    destruct (findParent (set_iter tree) t) as [[root children]|e] eqn:Hfind; [|done].
    cbn [mbind result_bind fst snd] in Hstep. injection Hstep as <-.
    pose proof (findParent_returns _ _ _ _ Hfind) as Hret.
    cbn [fst snd] in *. split; [by rewrite !length_app, Hlen|]. split.
    + intros k t' r Hk Hr.
      destruct (decide (k < length pre)) as [Hlt|Hge].
      * rewrite lookup_app_l in Hk by done. rewrite lookup_app_l in Hr by lia.
        by eapply Hroots.
      * rewrite lookup_app_r in Hk by lia. rewrite lookup_app_r in Hr by lia.
        rewrite Hlen in Hr.
        destruct (k - length pre) as [|k']; [|by rewrite lookup_cons, lookup_nil in Hk].
        simpl in Hk, Hr. injection Hk as <-. injection Hr as ->.
        destruct Hret as (Hin & Hcov & _). split; [done|].
        exists tree. split; [done|]. by apply Hiter.
    + intros c [Hc|Hc]%elem_of_app; [by apply Hmem|].
      exists tree. split; [done|]. destruct root as [r|].
      * destruct Hret as (_ & _ & _ & Hch). apply Hiter. by apply Hch.
      * destruct Hret as [_ ->]. by apply elem_of_nil in Hc.
Qed.

(** X11.  When every target span of every batch element is a span of the
    predicted tree of that element, [findClosestParent] returns the targets
    themselves, both as roots and as constraint spans. *)
Theorem findClosestParent_members (ner_spans : list (list span)) :
  (∀ i s, ner_spans !! i = Some s → s ≠ [] →
     ∃ tree, max_spans !! i = Some tree ∧ ∀ t, t ∈ s → t ∈ tree) →
  findClosestParent set_iter max_spans ner_spans
  = Ok (map (map Some) ner_spans, ner_spans).
Proof.
  intros Hmem. unfold findClosestParent.
  destruct (foldM_seq_inv
              (λ '(roots, diora_spans) i,
                 s ← py_get ner_spans i;
                 found ← (if decide (0 < length s)
                          then foldM (closest_parents set_iter max_spans i) ([], []) s
                          else Ok ([], []));
                 Ok (roots ++ [found.2], diora_spans ++ [found.1]))
              (λ i st, st = (map (map Some) (take i ner_spans), take i ner_spans))
              False IndexError (length ner_spans) 0 ([], []))
    as [(st & -> & ->)|[_ []]].
  - done.
  - intros i [roots ds] Hi [= -> ->]. left.
    destruct (lookup_lt_is_Some_2 ner_spans i) as [s Hs]; [lia|].
    rewrite (py_get_Some _ _ _ Hs). cbn [mbind result_bind].
    rewrite (take_S_r _ _ _ Hs), map_app. cbn [map].
    destruct (decide (0 < length s)) as [Hpos|Hzero].
    + destruct (Hmem i s Hs) as (tree & Htree & Hin); [by destruct s; simpl in Hpos; [lia|]|].
      rewrite (closest_parents_members i tree s [] [] Htree Hin).
      eexists. split; [done|]. done.
    + destruct s; [|simpl in Hzero; lia]. eexists. split; [done|]. done.
  - simpl. by rewrite firstn_all.
Qed.

(** X12.  What [findClosestParent] returns has one list of roots and one
    list of spans per batch element and one root per target.  Every root
    other than [None] is a predicted span of its batch element that covers
    its target, and every returned constraint span is a predicted span of
    its batch element. *)
Theorem findClosestParent_returns (ner_spans : list (list span))
    (roots : list (list (option span))) (diora_spans : list (list span)) :
  findClosestParent set_iter max_spans ner_spans = Ok (roots, diora_spans) →
  length roots = length ner_spans ∧ length diora_spans = length ner_spans ∧
  ∀ i s rs cs,
    ner_spans !! i = Some s → roots !! i = Some rs → diora_spans !! i = Some cs →
    length rs = length s ∧
    (∀ k t r, s !! k = Some t → rs !! k = Some (Some r) →
       covers r t = true ∧ ∃ tree, max_spans !! i = Some tree ∧ r ∈ tree) ∧
    (∀ c, c ∈ cs → ∃ tree, max_spans !! i = Some tree ∧ c ∈ tree).
Proof.
  unfold findClosestParent. intros Hrun.
  apply (foldM_seq_inv_Ok _
           (λ n (st : list (list (option span)) * list (list span)),
              length st.1 = n ∧ length st.2 = n ∧
              ∀ i s rs cs,
                ner_spans !! i = Some s → st.1 !! i = Some rs → st.2 !! i = Some cs →
                length rs = length s ∧
                (∀ k t r, s !! k = Some t → rs !! k = Some (Some r) →
                   covers r t = true ∧ ∃ tree, max_spans !! i = Some tree ∧ r ∈ tree) ∧
                (∀ c, c ∈ cs → ∃ tree, max_spans !! i = Some tree ∧ c ∈ tree)))
    in Hrun.
  - done.
  - split; [done|]. split; [done|]. intros i s rs cs _ Hrs. cbn [fst] in Hrs.
    by rewrite lookup_nil in Hrs.
  - intros n [roots0 ds0] st1 Hn (Hl1 & Hl2 & Hgood) Hstep. cbn [fst snd] in *.
    destruct (lookup_lt_is_Some_2 ner_spans n) as [s Hs]; [lia|].
    rewrite (py_get_Some _ _ _ Hs) in Hstep. cbn [mbind result_bind] in Hstep.
    assert (∃ found,
              (if decide (0 < length s)
               then foldM (closest_parents set_iter max_spans n) ([], []) s
               else Ok ([], [])) = Ok found ∧
              st1 = (roots0 ++ [found.2], ds0 ++ [found.1])) as (found & Hfound & ->).
    { destruct (if decide (0 < length s) then _ else _) as [found|e]; [|done].
      exists found. split; [done|]. by injection Hstep as <-. }
    cbn [fst snd]. rewrite !length_app, Hl1, Hl2. simpl.
    split; [lia|]. split; [lia|]. intros i s' rs cs Hs' Hrs Hcs.
    destruct (decide (i < n)) as [Hlt|Hge].
    + rewrite lookup_app_l in Hrs by lia. rewrite lookup_app_l in Hcs by lia.
      by eapply Hgood.
    + rewrite lookup_app_r in Hrs by lia. rewrite lookup_app_r in Hcs by lia.
      rewrite Hl1 in Hrs. rewrite Hl2 in Hcs.
      destruct (i - n) as [|d] eqn:Hd; [|by rewrite lookup_cons, lookup_nil in Hrs].
      assert (i = n) as -> by lia. simpl in Hrs, Hcs.
      injection Hrs as <-. injection Hcs as <-.
      rewrite Hs in Hs'. injection Hs' as <-.
      destruct (decide (0 < length s)) as [Hpos|Hzero].
      * by apply closest_parents_returns.
      * injection Hfound as <-. destruct s; [|simpl in Hzero; lia].
        split; [done|]. split; [intros k t r Hk; by rewrite lookup_nil in Hk|].
        intros c Hc. by apply elem_of_nil in Hc.
Qed.

End closest.

Lemma findClosestParent_members_witness :
  findClosestParent remove_dups [[(0, 2)%Z; (2, 2)%Z; (0, 4)%Z]; []]
                    [[(2, 2)%Z; (0, 4)%Z]; []]
  = Ok ([[Some (2, 2)%Z; Some (0, 4)%Z]; []], [[(2, 2)%Z; (0, 4)%Z]; []]).
Proof.
  apply (findClosestParent_members remove_dups (λ l x, elem_of_remove_dups l x)
           [[(0, 2)%Z; (2, 2)%Z; (0, 4)%Z]; []] [[(2, 2)%Z; (0, 4)%Z]; []]).
  intros i s Hs Hne.
  destruct i as [|[|i]]; simpl in Hs; [|injection Hs as <-; done|discriminate].
  injection Hs as <-. exists [(0, 2)%Z; (2, 2)%Z; (0, 4)%Z]. split; [reflexivity|].
  intros t Ht%list_elem_of_In. apply list_elem_of_In. simpl in *. tauto.
Defined.

Lemma findClosestParent_returns_witness :
  length [[Some (0, 2)%Z; Some (2, 2)%Z]; []] = length [[(1, 1)%Z; (2, 2)%Z]; []] ∧
  length [[(0, 2)%Z; (2, 2)%Z]; []] = length [[(1, 1)%Z; (2, 2)%Z]; []].
Proof.
  assert (findClosestParent remove_dups [[(0, 2)%Z; (2, 2)%Z; (0, 4)%Z]; []]
                            [[(1, 1)%Z; (2, 2)%Z]; []]
          = Ok ([[Some (0, 2)%Z; Some (2, 2)%Z]; []], [[(0, 2)%Z; (2, 2)%Z]; []]))
    as Hrun by (vm_compute; reflexivity).
  destruct (findClosestParent_returns remove_dups (λ l x, elem_of_remove_dups l x)
              _ _ _ _ Hrun) as (Hroots & Hspans & _).
  split; [exact Hroots|exact Hspans].
Defined.

(** ** Constraint sets without crossing spans *)

(** Two forced splits of one cell give two crossing constraint spans. *)
Lemma laminar_one_forced (s : gset span) (level pos i j : nat) :
  laminar s → i < level → j < level →
  forced s level pos i = true → forced s level pos j = true → i = j.
Proof.
  intros Hlam Hi Hj Hfi Hfj.
  assert (∀ i j, i < j → j < level →
            forced s level pos i = true → forced s level pos j = true → False) as Hcross.
  { clear i j Hi Hj Hfi Hfj. intros i j Hij Hj [_ Hri]%forced_true_iff [Hlj _]%forced_true_iff.
    destruct Hri as [?|Hri]; [lia|]. destruct Hlj as [?|Hlj]; [lia|].
    destruct (Hlam _ _ Hlj Hri) as [H|[H|[H|H]]]; simpl in H; lia. }
  destruct (Nat.lt_trichotomy i j) as [Hlt|[->|Hlt]]; [|done|].
  - destruct (Hcross i j Hlt Hj Hfi Hfj).
  - destruct (Hcross j i Hlt Hi Hfj Hfi).
Qed.

Lemma laminar_unambiguous (len batch_size : nat) (spans : list (list span)) :
  (∀ b, b < batch_size → laminar (span_set spans b)) →
  ¬ ambiguous len batch_size spans.
Proof.
  intros Hlam (level & pos & b & i & j & _ & _ & Hb & Hi & Hj & Hne & Hfi & Hfj).
  apply Hne. apply (laminar_one_forced (span_set spans b) level pos); auto.
Qed.

(** X13.  When, for every batch element, no two spans of its constraint set
    cross (any two lie one inside the other or apart), the assertion of
    [get_score_for_spans] cannot fail: the call returns a score for every
    batch element. *)
Theorem get_score_for_spans_laminar len batch_size scalars spans :
  1 ≤ len → length spans = batch_size →
  (∀ b, b < batch_size → laminar (span_set spans b)) →
  ∃ root, get_score_for_spans len batch_size scalars spans = Ok root ∧
          length root = batch_size.
Proof.
  intros Hlen Hspans Hlam.
  destruct (get_score_for_spans_returns len batch_size scalars spans Hlen Hspans)
    as (chart & root & _ & _ & _ & Hret & _ & Hl).
  - by apply laminar_unambiguous.
  - by exists root.
Qed.

Lemma get_score_for_spans_laminar_witness :
  ∃ root, get_score_for_spans 4 1 (λ _ _ _ _, 0%Z) [[(0, 2)%Z; (0, 3)%Z]] = Ok root ∧
          length root = 1.
Proof.
  apply (get_score_for_spans_laminar 4 1 (λ _ _ _ _, 0%Z) [[(0, 2)%Z; (0, 3)%Z]]).
  - lia.
  - reflexivity.
  - intros b Hb sp1 sp2 Hsp1 Hsp2. assert (b = 0) as -> by lia.
    apply span_set_single, list_elem_of_In in Hsp1, Hsp2. simpl in Hsp1, Hsp2.
    unfold nested_or_apart.
    destruct Hsp1 as [<-|[<-|[]]], Hsp2 as [<-|[<-|[]]]; simpl; lia.
Defined.

(** ** Scoring a given tree *)

Lemma binary_shape (tr : item) :
  binary tr = true →
  item_size tr = leaves (shape tr) ∧ ∀ pos, node_spans pos tr = bspans pos (shape tr).
Proof.
  induction tr as [w|ts IH] using item_nested_ind; intros Hbin; [done|].
  destruct ts as [|l [|r [|? ?]]]; try discriminate.
  apply Forall_cons in IH as [IHl IH]. apply Forall_cons in IH as [IHr _].
  cbn [binary] in Hbin. apply andb_prop in Hbin as [Hl Hr].
  destruct (IHl Hl) as [Hsl Hnl]. destruct (IHr Hr) as [Hsr Hnr].
  split.
  - cbn [item_size shape leaves map]. simpl. lia.
  - intros pos. cbn [node_spans shape bspans item_size map]. simpl list_sum.
    rewrite Nat.add_0_r, Hnl, Hnr, Hsl, Hsr, app_nil_r, <- app_assoc.
    do 3 f_equal. f_equal. lia.
Qed.

Lemma bspans_within (t : btree) :
  ∀ pos sp, sp ∈ bspans pos t →
    (Z.of_nat pos ≤ sp.1)%Z ∧ (sp.1 + sp.2 ≤ Z.of_nat (pos + leaves t))%Z.
Proof.
  induction t as [|l IHl r IHr]; intros pos sp Hsp; simpl in Hsp.
  - by apply elem_of_nil in Hsp.
  - simpl. pose proof (leaves_pos l). pose proof (leaves_pos r).
    apply elem_of_app in Hsp as [Hsp|Hsp%elem_of_app].
    + specialize (IHl _ _ Hsp). lia.
    + destruct Hsp as [Hsp|Hsp%list_elem_of_singleton].
      * specialize (IHr _ _ Hsp). lia.
      * subst sp. simpl. lia.
Qed.

Lemma bspans_root (pos : nat) (l r : btree) :
  (Z.of_nat pos, Z.of_nat (leaves l + leaves r)) ∈ bspans pos (Node l r).
Proof. simpl. rewrite !elem_of_app. right; right. by apply list_elem_of_singleton. Qed.

Lemma bspans_laminar (t : btree) :
  ∀ pos sp1 sp2, sp1 ∈ bspans pos t → sp2 ∈ bspans pos t → nested_or_apart sp1 sp2.
Proof.
  induction t as [|l IHl r IHr]; intros pos sp1 sp2 Hsp1 Hsp2; simpl in Hsp1, Hsp2.
  - by apply elem_of_nil in Hsp1.
  - unfold nested_or_apart.
    apply elem_of_app in Hsp1 as [H1|H1%elem_of_app];
      apply elem_of_app in Hsp2 as [H2|H2%elem_of_app].
    + by apply (IHl pos).
    + pose proof (bspans_within _ _ _ H1).
      destruct H2 as [H2|H2%list_elem_of_singleton].
      * pose proof (bspans_within _ _ _ H2). lia.
      * subst sp2. simpl. lia.
    + pose proof (bspans_within _ _ _ H2).
      destruct H1 as [H1|H1%list_elem_of_singleton].
      * pose proof (bspans_within _ _ _ H1). lia.
      * subst sp1. simpl. lia.
    + destruct H1 as [H1|H1%list_elem_of_singleton],
               H2 as [H2|H2%list_elem_of_singleton].
      * by apply (IHr (pos + leaves l)).
      * pose proof (bspans_within _ _ _ H1). subst sp2. simpl. lia.
      * pose proof (bspans_within _ _ _ H2). subst sp1. simpl. lia.
      * subst. simpl. lia.
Qed.

Section forced_cells.

Context (sel : gset span → (nat → Z) → nat → nat → nat → Prop).
Context (Hsel_forced : ∀ s f level pos idx,
  sel s f level pos idx →
  forced s level pos idx = true ∨ ∀ j, j < level → forced s level pos j = false).
Context (len batch_size : nat) (scalars : potentials) (spans : list (list span)).
Context (chart : list (list (list Z))).
Context (Hfilled : chart_filled sel len batch_size scalars spans chart).
Context (Hunamb : ¬ ambiguous len batch_size spans).

(** A cell with a forced split holds the combined score of that split. *)
Lemma forced_cell_val (level pos b idx : nat) :
  1 ≤ level → level + pos < len → b < batch_size → idx < level →
  forced (span_set spans b) level pos idx = true →
  cell_val chart level pos b = combined chart scalars level pos b idx.
Proof.
  intros Hlevel Hpos Hb Hidx Hforced.
  destruct (filled_cell_val sel len batch_size scalars spans chart level pos b
              Hfilled Hlevel Hpos Hb) as (idx' & Hidx' & Hsel & ->).
  destruct (Hsel_forced _ _ _ _ _ Hsel) as [Hforced'|Hnone].
  - destruct (decide (idx' = idx)) as [->|Hne]; [done|].
    destruct Hunamb. exists level, pos, b, idx', idx. done.
  - rewrite Hnone in Hforced by done. discriminate.
Qed.

(** A bracketing all of whose node spans are constraints of a batch element
    is scored as it stands: its cell holds its number of leaves plus the sum
    of its split potentials. *)
Lemma constrained_tree_val (b : nat) (t : btree) :
  b < batch_size →
  ∀ pos, (∀ sp, sp ∈ bspans pos t → sp ∈ span_set spans b) →
    pos + leaves t ≤ len →
    cell_val chart (leaves t - 1) pos b
    = (Z.of_nat (leaves t) + tree_score scalars b pos t)%Z.
Proof.
  intros Hb. induction t as [|l IHl r IHr]; intros pos Hin Hfit.
  - simpl. rewrite (filled_leaf_val _ _ _ _ _ _ _ _ Hfilled); [done| |done].
    simpl in Hfit. lia.
  - pose proof (leaves_pos l) as Hl1. pose proof (leaves_pos r) as Hr1.
    cbn [leaves] in *. cbn [tree_score].
    assert (∀ sp, sp ∈ bspans pos l → sp ∈ span_set spans b) as Hinl.
    { intros sp Hsp. apply Hin. simpl. rewrite elem_of_app. by left. }
    assert (∀ sp, sp ∈ bspans (pos + leaves l) r → sp ∈ span_set spans b) as Hinr.
    { intros sp Hsp. apply Hin. simpl. rewrite !elem_of_app. right. by left. }
    rewrite (forced_cell_val (leaves l + leaves r - 1) pos b (leaves l - 1));
      [|lia..|].
    + unfold combined.
      replace (leaves l + leaves r - 1 - (leaves l - 1) - 1) with (leaves r - 1) by lia.
      replace (pos + (leaves l - 1) + 1) with (pos + leaves l) by lia.
      rewrite IHl, IHr by (done || lia). lia.
    + apply forced_true_iff. split.
      * destruct l as [|l1 l2]; [by left|]. right.
        replace (leaves (Node l1 l2) - 1 + 1) with (leaves l1 + leaves l2)
          by (simpl in *; lia).
        apply Hinl, bspans_root.
      * destruct r as [|r1 r2]; [left; simpl; lia|]. right.
        replace (pos + (leaves l - 1) + 1) with (pos + leaves l) by lia.
        replace (leaves l + leaves (Node r1 r2) - 1 - (leaves l - 1) - 1 + 1)
          with (leaves r1 + leaves r2) by (simpl in *; lia).
        apply Hinr, bspans_root.
Qed.

End forced_cells.

Lemma selected_override_forced s f level pos idx :
  selected_override s f level pos idx →
  forced s level pos idx = true ∨ ∀ j, j < level → forced s level pos j = false.
Proof. intros [_ [?|[? _]]]; [by left|by right]. Qed.

Lemma selected_given_forced s f level pos idx :
  selected_given s f level pos idx →
  forced s level pos idx = true ∨ ∀ j, j < level → forced s level pos j = false.
Proof. intros [[_ ?]|[? _]]; [by left|by right]. Qed.

Lemma span_set_tree_to_spans (trees : list item) (b : nat) (tr : item) (sp : span) :
  trees !! b = Some tr → binary tr = true →
  sp ∈ span_set (map tree_to_spans trees) b ↔ sp ∈ bspans 0 (shape tr).
Proof.
  intros Htr Hbin. unfold span_set. change (map ?f ?l) with (f <$> l).
  rewrite list_lookup_fmap, Htr. simpl.
  rewrite elem_of_list_to_set, tree_to_spans_node_spans.
  by rewrite (proj2 (binary_shape tr Hbin)).
Qed.



(** ** Constraints against the unconstrained score *)

Lemma trees_unambiguous len batch_size (trees : list item) :
  length trees = batch_size →
  (∀ tr, tr ∈ trees → binary tr = true ∧ item_size tr = len) →
  ¬ ambiguous len batch_size (map tree_to_spans trees).
Proof.
  intros Htrees Hbin. apply laminar_unambiguous. intros b Hb sp1 sp2.
  destruct (lookup_lt_is_Some_2 trees b) as [tr Htr]; [lia|].
  destruct (Hbin tr) as [Hb1 _]; [by eapply list_elem_of_lookup_2|].
  rewrite !(span_set_tree_to_spans trees b tr) by done. apply bspans_laminar.
Qed.

Section against_free.

Context (sel : gset span → (nat → Z) → nat → nat → nat → Prop).
Context (len batch_size : nat) (scalars : potentials).
Context (spans spans0 : list (list span)).
Context (Hempty : Forall (λ span_lst, span_lst = []) spans0).
Context (free bound : list (list (list Z))).
Context (Hfree : chart_filled selected_override len batch_size scalars spans0 free).
Context (Hbound : chart_filled sel len batch_size scalars spans bound).

(** No cell filled under constraints exceeds the cell filled without. *)
Lemma constrained_cell_le (b : nat) (Hb : b < batch_size) (level : nat) :
  ∀ pos, level + pos < len →
    (cell_val bound level pos b ≤ cell_val free level pos b)%Z.
Proof.
  induction level as [level IH] using lt_wf_ind. intros pos Hpos.
  destruct (decide (level = 0)) as [->|Hlevel].
  - rewrite (filled_leaf_val _ _ _ _ _ _ _ _ Hfree) by lia.
    rewrite (filled_leaf_val _ _ _ _ _ _ _ _ Hbound) by lia. done.
  - destruct (filled_cell_val _ _ _ _ _ _ level pos b Hbound)
      as (i & Hi & _ & ->); [lia..|].
    destruct (filled_cell_val _ _ _ _ _ _ level pos b Hfree)
      as (j & Hj & [_ Hsel] & ->); [lia..|].
    assert (combined bound scalars level pos b i ≤ combined free scalars level pos b i)%Z
      as Hchildren.
    { unfold combined.
      pose proof (IH i ltac:(lia) pos ltac:(lia)).
      pose proof (IH (level - i - 1) ltac:(lia) (pos + i + 1) ltac:(lia)). lia. }
    assert (combined free scalars level pos b i ≤ combined free scalars level pos b j)%Z;
      [|lia].
    destruct Hsel as [Hforced|[_ (_ & Hmax & _)]]; [|by apply Hmax].
    rewrite span_set_empty in Hforced by done.
    apply forced_empty in Hforced as [-> ->]; [|done].
    replace i with 0 by lia. done.
Qed.

End against_free.

(** X15.  Constraints can only lower the score: for constraint sets on
    which [get_score_for_spans] returns, the score of every batch element is
    at most the score returned without constraints. *)
Theorem get_score_for_spans_at_most_free len batch_size scalars spans :
  1 ≤ len → length spans = batch_size → ¬ ambiguous len batch_size spans →
  ∃ root free_root,
    get_score_for_spans len batch_size scalars spans = Ok root ∧
    get_score_for_spans len batch_size scalars (replicate batch_size []) = Ok free_root ∧
    ∀ b, b < batch_size →
      ∃ v u, root !! b = Some v ∧ free_root !! b = Some u ∧ (v ≤ u)%Z.
Proof.
  intros Hlen Hspans Hunamb.
  assert (Forall (λ span_lst : list span, span_lst = []) (replicate batch_size []))
    as Hempty by (by apply Forall_replicate).
  destruct (get_score_for_spans_returns len batch_size scalars spans Hlen Hspans Hunamb)
    as (bound & root & _ & Hshape & Hbound & Hret & Hvec & _).
  destruct (get_score_for_spans_returns len batch_size scalars (replicate batch_size []))
    as (free & free_root & _ & Hshape0 & Hfree & Hret0 & Hvec0 & _);
    [done|by rewrite length_replicate|by apply unconstrained_unambiguous|].
  exists root, free_root. split; [done|]. split; [done|]. intros b Hb.
  exists (cell_val bound (len - 1) 0 b), (cell_val free (len - 1) 0 b).
  split; [|split].
  - rewrite <- (chart_shape_cell len batch_size) by (done || lia).
    by rewrite cell_cell_vec, Hvec.
  - rewrite <- (chart_shape_cell len batch_size) by (done || lia).
    by rewrite cell_cell_vec, Hvec0.
  - apply (constrained_cell_le selected_override len batch_size scalars spans
             (replicate batch_size []) Hempty free bound Hfree Hbound b Hb); lia.
Qed.

Lemma get_score_for_spans_at_most_free_witness :
  ∃ root free_root,
    get_score_for_spans 4 1 scenario_potentials [[(0, 2)%Z; (0, 3)%Z]] = Ok root ∧
    get_score_for_spans 4 1 scenario_potentials (replicate 1 []) = Ok free_root ∧
    ∀ b, b < 1 → ∃ v u, root !! b = Some v ∧ free_root !! b = Some u ∧ (v ≤ u)%Z.
Proof.
  apply (get_score_for_spans_at_most_free 4 1 scenario_potentials
           [[(0, 2)%Z; (0, 3)%Z]]).
  - lia.
  - reflexivity.
  - apply laminar_unambiguous. intros b Hb sp1 sp2 Hsp1 Hsp2.
    assert (b = 0) as -> by lia.
    apply span_set_single, list_elem_of_In in Hsp1, Hsp2. simpl in Hsp1, Hsp2.
    unfold nested_or_apart.
    destruct Hsp1 as [<-|[<-|[]]], Hsp2 as [<-|[<-|[]]]; simpl; lia.
Defined.



(** ** Scoring the chains of [makeRightTree] and [makeLeftTree] *)

Lemma leaves_right_comb (n : nat) : 1 ≤ n → leaves (right_comb n) = n.
Proof.
  induction n as [|n IH]; [lia|]. intros _. destruct n as [|n]; [done|].
  change (right_comb (S (S n))) with (Node Leaf (right_comb (S n))).
  cbn [leaves]. rewrite IH by lia. done.
Qed.

Lemma leaves_left_comb (n : nat) : 1 ≤ n → leaves (left_comb n) = n.
Proof.
  induction n as [|n IH]; [lia|]. intros _. destruct n as [|n]; [done|].
  change (left_comb (S (S n))) with (Node (left_comb (S n)) Leaf).
  cbn [leaves]. rewrite IH by lia. lia.
Qed.

Lemma bspans_right_comb (n : nat) :
  ∀ pos sp, sp ∈ bspans pos (right_comb n) →
    (sp.1 + sp.2 = Z.of_nat (pos + n))%Z ∧ (2 ≤ sp.2 ≤ Z.of_nat n)%Z.
Proof.
  induction n as [|n IH]; intros pos sp Hsp; [by apply elem_of_nil in Hsp|].
  destruct n as [|n]; [by apply elem_of_nil in Hsp|].
  change (right_comb (S (S n))) with (Node Leaf (right_comb (S n))) in Hsp.
  cbn [bspans] in Hsp. rewrite leaves_right_comb in Hsp by lia.
  apply elem_of_app in Hsp as [Hsp|Hsp%elem_of_app]; [by apply elem_of_nil in Hsp|].
  destruct Hsp as [Hsp|Hsp%list_elem_of_singleton].
  - specialize (IH _ _ Hsp). cbn [leaves] in IH. lia.
  - subst sp. simpl. lia.
Qed.

Lemma bspans_left_comb (n : nat) :
  ∀ pos sp, sp ∈ bspans pos (left_comb n) →
    sp.1 = Z.of_nat pos ∧ (2 ≤ sp.2 ≤ Z.of_nat n)%Z.
Proof.
  induction n as [|n IH]; intros pos sp Hsp; [by apply elem_of_nil in Hsp|].
  destruct n as [|n]; [by apply elem_of_nil in Hsp|].
  change (left_comb (S (S n))) with (Node (left_comb (S n)) Leaf) in Hsp.
  cbn [bspans] in Hsp. rewrite leaves_left_comb in Hsp by lia.
  apply elem_of_app in Hsp as [Hsp|Hsp%elem_of_app].
  - specialize (IH _ _ Hsp). lia.
  - destruct Hsp as [Hsp|Hsp%list_elem_of_singleton]; [by apply elem_of_nil in Hsp|].
    subst sp. simpl. lia.
Qed.

Lemma span_set_right (info : list (list span)) (b : nat) (s : list span) (sp : span) :
  info !! b = Some s →
  sp ∈ span_set (makeRightTree info) b ↔
  ∃ t, t ∈ s ∧ (sp.1 + sp.2 = t.1 + t.2)%Z ∧ (2 ≤ sp.2 ≤ t.2)%Z.
Proof.
  intros Hs. unfold span_set, makeRightTree. change (map ?f ?l) with (f <$> l).
  rewrite list_lookup_fmap, Hs. simpl.
  rewrite elem_of_list_to_set, elem_of_right_chains. split; [|by right].
  intros [Hnil|?]; [|done]. by apply elem_of_nil in Hnil.
Qed.

Lemma span_set_left (info : list (list span)) (b : nat) (s : list span) (sp : span) :
  info !! b = Some s →
  sp ∈ span_set (makeLeftTree info) b ↔
  ∃ t, t ∈ s ∧ sp.1 = t.1 ∧ (2 ≤ sp.2 ≤ t.2)%Z.
Proof.
  intros Hs. unfold span_set, makeLeftTree. change (map ?f ?l) with (f <$> l).
  rewrite list_lookup_fmap, Hs. simpl.
  rewrite elem_of_list_to_set, elem_of_left_chains. split; [|by right].
  intros [Hnil|?]; [|done]. by apply elem_of_nil in Hnil.
Qed.

Lemma right_chains_unambiguous len batch_size (info : list (list span)) :
  length info = batch_size →
  (∀ s, s ∈ info → separate_spans len s) →
  ¬ ambiguous len batch_size (makeRightTree info).
Proof.
  intros Hinfo Hsep. apply laminar_unambiguous. intros b Hb sp1 sp2.
  destruct (lookup_lt_is_Some_2 info b) as [s Hs]; [lia|].
  destruct (Hsep s) as [Hwithin Hapart]; [by eapply list_elem_of_lookup_2|].
  rewrite !(span_set_right info b s) by done.
  intros (t & Ht & He1 & Hl1) (u & Hu & He2 & Hl2). unfold nested_or_apart.
  destruct (Hapart t u Ht Hu) as [->|[?|?]]; lia.
Qed.

Lemma left_chains_unambiguous len batch_size (info : list (list span)) :
  length info = batch_size →
  (∀ s, s ∈ info → separate_spans len s) →
  ¬ ambiguous len batch_size (makeLeftTree info).
Proof.
  intros Hinfo Hsep. apply laminar_unambiguous. intros b Hb sp1 sp2.
  destruct (lookup_lt_is_Some_2 info b) as [s Hs]; [lia|].
  destruct (Hsep s) as [Hwithin Hapart]; [by eapply list_elem_of_lookup_2|].
  rewrite !(span_set_left info b s) by done.
  intros (t & Ht & He1 & Hl1) (u & Hu & He2 & Hl2). unfold nested_or_apart.
  destruct (Hapart t u Ht Hu) as [->|[?|?]]; lia.
Qed.

Section chain_cells.

Context (sel : gset span → (nat → Z) → nat → nat → nat → Prop).
Context (Hsel_forced : ∀ s f level pos idx,
  sel s f level pos idx →
  forced s level pos idx = true ∨ ∀ j, j < level → forced s level pos j = false).
Context (len batch_size : nat) (scalars : potentials) (info : list (list span)).
Context (chart : list (list (list Z))).

(** The cell of a given span holds the score of the right-branching
    bracketing of its tokens. *)
Lemma right_chain_val (b : nat) (s : list span) (t : span) :
  chart_filled sel len batch_size scalars (makeRightTree info) chart →
  ¬ ambiguous len batch_size (makeRightTree info) →
  b < batch_size → info !! b = Some s → t ∈ s → span_within len t →
  cell_val chart (Z.to_nat (t.2 - 1)) (Z.to_nat t.1) b
  = (t.2 + tree_score scalars b (Z.to_nat t.1) (right_comb (Z.to_nat t.2)))%Z.
Proof.
  intros Hfilled Hunamb Hb Hs Ht (Hstart & Hsize & Hend).
  pose proof (constrained_tree_val sel Hsel_forced len batch_size scalars
                (makeRightTree info) chart Hfilled Hunamb b
                (right_comb (Z.to_nat t.2)) Hb (Z.to_nat t.1)) as Hval.
  rewrite leaves_right_comb in Hval by lia.
  replace (Z.to_nat (t.2 - 1)) with (Z.to_nat t.2 - 1) by lia.
  rewrite Hval; [lia| |lia].
  intros sp Hsp%bspans_right_comb. apply (span_set_right info b s); [done|].
  exists t. split; [done|]. lia.
Qed.

Lemma left_chain_val (b : nat) (s : list span) (t : span) :
  chart_filled sel len batch_size scalars (makeLeftTree info) chart →
  ¬ ambiguous len batch_size (makeLeftTree info) →
  b < batch_size → info !! b = Some s → t ∈ s → span_within len t →
  cell_val chart (Z.to_nat (t.2 - 1)) (Z.to_nat t.1) b
  = (t.2 + tree_score scalars b (Z.to_nat t.1) (left_comb (Z.to_nat t.2)))%Z.
Proof.
  intros Hfilled Hunamb Hb Hs Ht (Hstart & Hsize & Hend).
  pose proof (constrained_tree_val sel Hsel_forced len batch_size scalars
                (makeLeftTree info) chart Hfilled Hunamb b
                (left_comb (Z.to_nat t.2)) Hb (Z.to_nat t.1)) as Hval.
  rewrite leaves_left_comb in Hval by lia.
  replace (Z.to_nat (t.2 - 1)) with (Z.to_nat t.2 - 1) by lia.
  rewrite Hval; [lia| |lia].
  intros sp Hsp%bspans_left_comb. apply (span_set_left info b s); [done|].
  exists t. split; [done|]. lia.
Qed.

End chain_cells.

Lemma separate_valid_roots len batch_size (info : list (list span)) :
  length info = batch_size →
  (∀ s, s ∈ info → separate_spans len s) →
  valid_roots len batch_size info.
Proof.
  intros Hinfo Hsep. split; [lia|]. intros bt roots root Hroots Hroot.
  destruct (Hsep roots) as [Hwithin _]; [by eapply list_elem_of_lookup_2|].
  by apply Hwithin.
Qed.

Lemma chart_roots_lookup (chart : list (list (list Z))) (info : list (list span))
    (g : nat → span → Z) (b k : nat) (s : list span) (t : span) :
  info !! b = Some s → s !! k = Some t →
  map (λ '(bt, roots), map (g bt) roots) (zip (seq 0 (length info)) info) !! b
    ≫= (.!! k) = Some (g b t).
Proof.
  intros Hs Hk. change (map ?f ?l) with (f <$> l). rewrite list_lookup_fmap.
  assert (zip (seq 0 (length info)) info !! b = Some (b, s)) as ->.
  { apply lookup_zip_Some. split; [|done].
    apply lookup_seq. split; [done|]. by apply lookup_lt_Some in Hs. }
  cbn. change (map ?f ?l) with (f <$> l). rewrite list_lookup_fmap.
  unfold span in *. by rewrite Hk.
Qed.



Lemma separate_single (len : nat) (t : span) :
  span_within len t → ∀ s, s ∈ [[t]] → separate_spans len s.
Proof.
  intros Ht s ->%list_elem_of_singleton. split.
  - by intros t' ->%list_elem_of_singleton.
  - intros t' u ->%list_elem_of_singleton ->%list_elem_of_singleton. by left.
Qed.





(** ** Sequences of one token and of none *)

(** X20.  On sequences of one token the loop over the levels is not entered:
    [get_score_for_spans] returns the initial score 1 for every batch
    element, whatever the potentials and the constraints (which are not
    read, so the list of constraints may even be shorter than the batch). *)
Theorem get_score_for_spans_one_token batch_size scalars (spans : list (list span)) :
  get_score_for_spans 1 batch_size scalars spans = Ok (replicate batch_size 1%Z).
Proof.
  unfold get_score_for_spans, fill_chart.
  assert (1 ≤ 1) as Hlen by lia.
  destruct (backpointers_Ok 1 batch_size (replicate batch_size [])
              (length_replicate _ _) Hlen) as [bp ->].
  reflexivity.
Qed.

(** X21.  On an empty sequence [get_score_for_spans] raises [IndexError]:
    with a batch that is not empty at the assignment to [bp[ib][0]], with an
    empty batch at [chart[-1]], the chart having no row. *)
Theorem get_score_for_spans_no_token batch_size scalars (spans : list (list span)) :
  get_score_for_spans 0 batch_size scalars spans = Raise IndexError.
Proof.
  unfold get_score_for_spans, fill_chart. by destruct batch_size.
Qed.

(** ** The evaluation of one example in [run_train] *)

(** X22.  For a gold tree given as text (its tokens separated by single
    spaces) and a predicted tree with no more leaves than there are words,
    the evaluation of the example returns: the first two counts are the
    number of distinct spans that the predicted tree shares with the gold
    tree, the third is the number of distinct spans of the gold tree, and the
    words put at the leaves of the predicted tree do not matter. *)
Theorem run_train_example_counts (gold tr : item) (s : list string) :
  well_formed gold = true →
  item_size tr ≤ length s →
  run_train_example (inl (join_space (tokens_of gold))) tr s
  = Ok (size (list_to_set (tree_to_spans gold) ∩ list_to_set (tree_to_spans tr)
              : gset span),
        size (list_to_set (tree_to_spans gold) ∩ list_to_set (tree_to_spans tr)
              : gset span),
        size (list_to_set (tree_to_spans gold) : gset span)).
Proof.
  intros Hwf Hlen. unfold run_train_example, replace_leaves.
  destruct (replace_func_Ok s tr 0 ltac:(lia)) as (tr' & -> & _ & Hskel).
  cbn [mbind result_bind snd].
  assert (str_to_tuple (join_space (tokens_of gold)) = [gold]) as ->.
  { unfold str_to_tuple.
    rewrite split_join by (apply tokens_of_nonempty || by apply tokens_of_no_space).
    by rewrite push_tokens_of. }
  cbn [py_get lookup list_lookup mbind result_bind].
  assert (tree_to_spans tr' = tree_to_spans tr) as ->.
  { rewrite !tree_to_spans_node_spans.
    rewrite <- (proj2 (node_spans_skeleton tr')), <- (proj2 (node_spans_skeleton tr)).
    by rewrite Hskel. }
  unfold precision_and_recall. rewrite !count_members.
  by rewrite (intersection_comm_L (list_to_set (tree_to_spans tr))).
Qed.

Lemma run_train_example_counts_witness :
  run_train_example (inl "( ( a b ) c )") (Tuple [Str "0"; Tuple [Str "1"; Str "2"]])
    ["a"; "b"; "c"]
  = Ok (size (list_to_set [(0, 2)%Z; (0, 3)%Z] ∩ list_to_set [(1, 2)%Z; (0, 3)%Z]
              : gset span),
        size (list_to_set [(0, 2)%Z; (0, 3)%Z] ∩ list_to_set [(1, 2)%Z; (0, 3)%Z]
              : gset span),
        size (list_to_set [(0, 2)%Z; (0, 3)%Z] : gset span)).
Proof.
  apply (run_train_example_counts (Tuple [Tuple [Str "a"; Str "b"]; Str "c"])
           (Tuple [Str "0"; Tuple [Str "1"; Str "2"]]) ["a"; "b"; "c"]).
  - reflexivity.
  - simpl. lia.
Defined.
